(** * Feishu / Claude CLI bridge: process runner, session registry,
      session manager and output aggregator.

    Shallow embedding of
      - server/claude-cli.js            (queryClaude, abortClaudeSession, ...)
      - server/lib/feishu-session.js    (FeishuSessionManager)
      - server/lib/feishu-message-writer.js (FeishuMessageWriter)
      - server/feishu-ws.js             (FeishuService.start)

    JavaScript strings are sequences of UTF-16 code units; [length],
    [substring] and [lastIndexOf] all count code units, so a string is a
    [list N] here.  The single-threaded event loop is modelled by
    explicit state passing: every handler is a function that runs to its
    next suspension point. *)

From stdpp Require Import base list strings pretty relations.
From Stdlib Require Import ZArith Lia.

#[local] Set Warnings "-register-all,-abstract-large-number".
#[local] Open Scope Z_scope.
#[local] Open Scope nat_scope.

(* ===================================================================== *)
(** ** JavaScript values shared by all components *)
(* ===================================================================== *)

Module Js.

Definition jsstring := list N.

(** A source-code string literal (the literals of the modelled code that
    matter are ASCII). *)
Definition lit (s : string) : jsstring :=
  Ascii.N_of_ascii <$> String.list_ascii_of_string s.

(** [x] used as a condition, for a value that is a string, [null] or
    [undefined]: only a non-empty string is truthy. *)
Definition truthy (x : option jsstring) : bool :=
  match x with
  | Some (_ :: _) => true
  | _ => false
  end.

(** [a || b] on such values. *)
Definition or_else (a b : option jsstring) : option jsstring :=
  if truthy a then a else b.

(** Template-literal rendering of an integer number. *)
Definition show_Z (z : Z) : jsstring := lit (pretty z).

(** [haystack.includes(needle)]. *)
Fixpoint is_prefix (p s : jsstring) : bool :=
  match p, s with
  | [], _ => true
  | _ :: _, [] => false
  | a :: p', b :: s' => N.eqb a b && is_prefix p' s'
  end.

Fixpoint includes (needle haystack : jsstring) : bool :=
  is_prefix needle haystack ||
  match haystack with
  | [] => false
  | _ :: rest => includes needle rest
  end.

(** [s.lastIndexOf(c, position)] for a one-character search string: the
    greatest index [i <= position] with [s[i] = c], or [-1].  The scan
    keeps the last match seen at an index not beyond [position]. *)
Fixpoint lastIndexOf_scan (c : N) (s : jsstring) (position i : nat) (found : Z) : Z :=
  match s with
  | [] => found
  | x :: rest =>
      if (position <? i)%nat then found
      else lastIndexOf_scan c rest position (S i)
             (if N.eqb x c then Z.of_nat i else found)
  end.

Definition lastIndexOf (c : N) (s : jsstring) (position : nat) : Z :=
  lastIndexOf_scan c s position 0 (-1).

(** [s.substring(0, k)] and [s.substring(k)]; both clamp at the length,
    like [firstn] and [skipn]. *)
Definition substring_to (k : nat) (s : jsstring) : jsstring := firstn k s.
Definition substring_from (k : nat) (s : jsstring) : jsstring := skipn k s.

Definition newline : N := 10.
Definition space : N := 32.

(** [xs.join(',')] on an array of strings. *)
Fixpoint join_comma (xs : list jsstring) : jsstring :=
  match xs with
  | [] => []
  | [x] => x
  | x :: rest => x ++ lit "," ++ join_comma rest
  end.

(** JSON data as [JSON.parse] produces it.  A number is kept as the two
    observations the modelled code makes of it: whether it is truthy and
    its [ToString] rendering. *)
Inductive json :=
| JNull
| JBool (b : bool)
| JNum (nonzero : bool) (shown : jsstring)
| JStr (s : jsstring)
| JArr (items : list json)
| JObj (fields : list (jsstring * json)).

(** A JavaScript value of the modelled code: [None] is [undefined]. *)
Definition jsval := option json.

Definition truthy_val (v : jsval) : bool :=
  match v with
  | None | Some JNull => false
  | Some (JBool b) => b
  | Some (JNum nonzero _) => nonzero
  | Some (JStr s) => match s with [] => false | _ => true end
  | Some (JArr _) | Some (JObj _) => true
  end.

(** What a [throw] can carry: an [Error] object of the engine, or any
    other value. *)
Inductive thrown :=
| TypeError
| SyntaxError
| ThrownValue (v : jsval).

Inductive completion (A : Type) :=
| Normal (a : A)
| Throw (e : thrown).
Arguments Normal {A} a.
Arguments Throw {A} e.

Fixpoint assoc (k : jsstring) (fields : list (jsstring * json)) : jsval :=
  match fields with
  | [] => None
  | (k', v) :: rest => if bool_decide (k = k') then Some v else assoc k rest
  end.

(** [ToString], as applied by [+=] on a string and by template literals.
    An object is converted through its [toString] property: a parsed
    object that has a key [toString] of its own holds data there, not a
    function, and the conversion throws a [TypeError]; every other parsed
    object inherits the method that answers [[object Object]].  An array
    joins the conversions of its elements, [null] counting as the empty
    string. *)
Fixpoint toStr (v : json) : completion jsstring :=
  match v with
  | JNull => Normal (lit "null")
  | JBool true => Normal (lit "true")
  | JBool false => Normal (lit "false")
  | JNum _ shown => Normal shown
  | JStr s => Normal s
  | JArr items =>
      (fix join (l : list json) : completion jsstring :=
         match l with
         | [] => Normal []
         | x :: rest =>
             match (match x with JNull => Normal [] | _ => toStr x end) with
             | Throw e => Throw e
             | Normal sx =>
                 match rest with
                 | [] => Normal sx
                 | _ :: _ =>
                     match join rest with
                     | Throw e => Throw e
                     | Normal sr => Normal (sx ++ lit "," ++ sr)
                     end
                 end
             end
         end) items
  | JObj fields =>
      match assoc (lit "toString") fields with
      | Some _ => Throw TypeError
      | None => Normal (lit "[object Object]")
      end
  end.

Definition toStr_val (v : jsval) : completion jsstring :=
  match v with
  | None => Normal (lit "undefined")
  | Some j => toStr j
  end.

(** [v.k] for one of the data property names the writer reads ([type],
    [data], [error], [sessionId], [message], [content], [text], [delta]):
    a [TypeError] on [null] and [undefined], the field of an object,
    [undefined] on every other value. *)
Definition getProp (v : jsval) (k : jsstring) : completion jsval :=
  match v with
  | None | Some JNull => Throw TypeError
  | Some (JObj fields) => Normal (assoc k fields)
  | Some _ => Normal None
  end.

(** [v?.k]. *)
Definition getPropOpt (v : jsval) (k : jsstring) : completion jsval :=
  match v with
  | None | Some JNull => Normal None
  | _ => getProp v k
  end.

(** [v === 'literal']. *)
Definition is_lit (v : jsval) (s : string) : bool :=
  match v with
  | Some (JStr x) => bool_decide (x = lit s)
  | _ => false
  end.

(** [error.message] in a [catch] clause. *)
Definition error_message (e : thrown) : completion jsval :=
  match e with
  | TypeError | SyntaxError => Normal (Some (JStr (lit "<engine message>")))
  | ThrownValue v => getProp v (lit "message")
  end.

End Js.

(* ===================================================================== *)
(** ** server/lib/feishu-message-writer.js *)
(* ===================================================================== *)

Module MessageWriter.
Import Js.

(** [nearby > maxLength * 0.8].  [nearby] is an integer; the product
    [maxLength * 0.8] is compared in exact arithmetic ([5 * nearby >
    4 * maxLength]), which is what the double comparison yields for
    every bound below 2^50. *)
Definition in_trailing_fifth (nearby : Z) (maxLength : nat) : bool :=
  (4 * Z.of_nat maxLength <? 5 * nearby)%Z.

(** The choice of [splitIndex] in one turn of the loop. *)
Definition splitIndex (remaining : jsstring) (maxLength : nat) : nat :=
  let nearbyNewline := lastIndexOf newline remaining maxLength in
  let nearbySpace := lastIndexOf space remaining maxLength in
  if in_trailing_fifth nearbyNewline maxLength then Z.to_nat (nearbyNewline + 1)
  else if in_trailing_fifth nearbySpace maxLength then Z.to_nat (nearbySpace + 1)
  else maxLength.

(** The [while (remaining.length > 0)] loop.  One unit of fuel per turn;
    [None] is "still looping when the fuel ran out". *)
Fixpoint splitLoop (fuel : nat) (maxLength : nat) (remaining : jsstring)
    (chunks : list jsstring) : option (list jsstring) :=
  match fuel with
  | O => None
  | S fuel' =>
      if (length remaining =? 0)%nat then Some chunks
      else if (length remaining <=? maxLength)%nat then Some (chunks ++ [remaining])
      else
        let k := splitIndex remaining maxLength in
        splitLoop fuel' maxLength (substring_from k remaining)
          (chunks ++ [substring_to k remaining])
  end.

Definition splitMessage (fuel : nat) (text : jsstring) (maxLength : nat)
    : option (list jsstring) :=
  if (length text <=? maxLength)%nat then Some [text]
  else splitLoop fuel maxLength text [].

(** The default chunk bound, [maxLength = 5000]. *)
Definition defaultMaxLength : nat := 5000.

(** The writer object.  [flushTimer] is [Some t] while a timer is armed to
    fire at time [t]. *)
Record Writer := mkWriter {
  chatId : jsstring;
  sessionId : jsval;
  buffer : jsstring;
  lastFlushTime : Z;
  flushInterval : Z;
  flushThreshold : nat;
  isCompleted : bool;
  flushTimer : option Z
}.

Definition constructor (now : Z) (chatId : jsstring) (sessionId : jsval) : Writer :=
  mkWriter chatId sessionId [] now 3000 2000 false None.

Definition set_buffer (b : jsstring) (w : Writer) : Writer :=
  mkWriter (chatId w) (sessionId w) b (lastFlushTime w) (flushInterval w)
    (flushThreshold w) (isCompleted w) (flushTimer w).

Definition set_timer (t : option Z) (w : Writer) : Writer :=
  mkWriter (chatId w) (sessionId w) (buffer w) (lastFlushTime w) (flushInterval w)
    (flushThreshold w) (isCompleted w) t.

Definition set_lastFlushTime (t : Z) (w : Writer) : Writer :=
  mkWriter (chatId w) (sessionId w) (buffer w) t (flushInterval w)
    (flushThreshold w) (isCompleted w) (flushTimer w).

Definition set_isCompleted (b : bool) (w : Writer) : Writer :=
  mkWriter (chatId w) (sessionId w) (buffer w) (lastFlushTime w) (flushInterval w)
    (flushThreshold w) b (flushTimer w).

Definition setSessionId (id : jsval) (w : Writer) : Writer :=
  mkWriter (chatId w) id (buffer w) (lastFlushTime w) (flushInterval w)
    (flushThreshold w) (isCompleted w) (flushTimer w).

(** [this.buffer += text]. *)
Definition appendText (text : jsstring) (w : Writer) : Writer :=
  set_buffer (buffer w ++ text) w.

(** A call of the async [flush] that is suspended at an [await]:
    [textToSend] is the text captured by the buffer swap, [unsent] the
    chunks not yet delivered (the head is the one being sent). *)
Record Flush := mkFlush {
  textToSend : jsstring;
  unsent : list jsstring
}.

(** [flush()] up to its first [await]: the guard on an empty buffer, the
    timer reset, the buffer swap and the split.  With the default bound
    the split always returns within the fuel given here
    (lemma [splitMessage_default_total]). *)
Definition flush (now : Z) (w : Writer) : Writer * option Flush :=
  match buffer w with
  | [] => (w, None)
  | _ :: _ =>
      let w1 := set_timer None w in
      let captured := buffer w1 in
      let w2 := set_lastFlushTime now (set_buffer [] w1) in
      let chunks :=
        match splitMessage (S (length captured)) captured defaultMaxLength with
        | Some cs => cs
        | None => []
        end in
      (w2, Some (mkFlush captured chunks))
  end.

(** The [catch] clause of a suspended flush whose send has thrown:
    [this.buffer = textToSend + this.buffer]. *)
Definition flush_failed (w : Writer) (f : Flush) : Writer :=
  set_buffer (textToSend f ++ buffer w) w.

(** [flushIfNeeded()]. *)
Definition flushIfNeeded (now : Z) (w : Writer) : Writer * option Flush :=
  let timeSinceLastFlush := (now - lastFlushTime w)%Z in
  let shouldFlushByTime := (flushInterval w <=? timeSinceLastFlush)%Z in
  let shouldFlushBySize := (flushThreshold w <=? length (buffer w))%nat in
  if shouldFlushByTime || shouldFlushBySize then flush now w
  else
    match flushTimer w with
    | Some _ => (w, None)
    | None =>
        let remainingTime := (flushInterval w - timeSinceLastFlush)%Z in
        (set_timer (Some (now + remainingTime)%Z) w, None)
    end.

(** The callback of the auto-flush timer. *)
Definition timer_fired (now : Z) (w : Writer) : Writer * option Flush :=
  let w1 := set_timer None w in
  match buffer w1 with
  | [] => (w1, None)
  | _ :: _ => flush now w1
  end.

(** [complete()] up to its first [await]. *)
Definition complete (now : Z) (w : Writer) : Writer * option Flush :=
  let w1 := set_timer None w in
  match buffer w1 with
  | [] => (w1, None)
  | _ :: _ => flush now w1
  end.

Definition destroy (w : Writer) : Writer :=
  set_buffer [] (set_timer None w).

(** Handlers mutate the writer and may throw half-way: a state monad
    whose state survives a throw. *)
Definition M (A : Type) : Type := Writer -> Writer * completion A.

Definition ret {A : Type} (a : A) : M A := fun w => (w, Normal a).

Definition bind {A B : Type} (m : M A) (k : A -> M B) : M B :=
  fun w =>
    match m w with
    | (w1, Normal a) => k a w1
    | (w1, Throw e) => (w1, Throw e)
    end.

Definition lift {A : Type} (c : completion A) : M A := fun w => (w, c).

Definition modify (f : Writer -> Writer) : M unit := fun w => (f w, Normal tt).

Notation "x <- m ;; k" := (bind m (fun x => k))
  (at level 100, m at level 99, right associativity).
Notation "m ;;; k" := (bind m (fun _ => k))
  (at level 100, right associativity).

(** [for (const x of xs) body(x)] over the elements of an array. *)
Fixpoint for_each (xs : list json) (body : json -> M unit) : M unit :=
  match xs with
  | [] => ret tt
  | x :: rest => body x ;;; for_each rest body
  end.

(** [for (const block of content)]: an array yields its elements, a
    string its characters (each a one-character string), anything else is
    not iterable. *)
Definition for_of (content : jsval) (body : json -> M unit) : M unit :=
  match content with
  | Some (JArr items) => for_each items body
  | Some (JStr s) => for_each ((fun c => JStr [c]) <$> s) body
  | _ => lift (Throw TypeError)
  end.

(** [this.appendText(v)] for a value that need not be a string:
    [this.buffer += v] converts it first. *)
Definition append_value (v : jsval) : M unit :=
  t <- lift (toStr_val v) ;; modify (appendText t).

(** [if (v) this.appendText(v)]. *)
Definition append_if_truthy (v : jsval) : M unit :=
  if truthy_val v then append_value v else ret tt.

Definition handleSessionCreated (message : jsval) : M unit :=
  id <- lift (getProp message (lit "sessionId")) ;;
  if truthy_val id then modify (setSessionId id) else ret tt.

Definition handleClaudeResponse (data : jsval) : M unit :=
  if negb (truthy_val data) then ret tt
  else
    ty <- lift (getProp data (lit "type")) ;;
    if is_lit ty "assistant" || is_lit ty "assistant_message" then
      message <- lift (getProp data (lit "message")) ;;
      content <- lift (getPropOpt message (lit "content")) ;;
      if truthy_val content then
        for_of content (fun block =>
          bty <- lift (getProp (Some block) (lit "type")) ;;
          if is_lit bty "text" then
            btext <- lift (getProp (Some block) (lit "text")) ;;
            append_if_truthy btext
          else ret tt)
      else
        text <- lift (getProp data (lit "text")) ;;
        append_if_truthy text
    else if is_lit ty "content_block_delta" || is_lit ty "text_delta" then
      delta <- lift (getProp data (lit "delta")) ;;
      dtext <- lift (getPropOpt delta (lit "text")) ;;
      if truthy_val dtext then append_value dtext
      else
        text <- lift (getProp data (lit "text")) ;;
        append_if_truthy text
    else if is_lit ty "result" then modify (set_isCompleted true)
    else ret tt.

(** [if (data && typeof data === 'string') this.appendText(data)]. *)
Definition handleClaudeOutput (data : jsval) : M unit :=
  match data with
  | Some (JStr (c :: s)) => modify (appendText (c :: s))
  | _ => ret tt
  end.

(** The text of the template literal around [${error}]: a line feed, the
    warning sign U+26A0 with its variation selector U+FE0F, [ Error: ]. *)
Definition error_prefix : jsstring := [10; 9888; 65039]%N ++ lit " Error: ".

Definition handleError (error : jsval) : M unit :=
  t <- lift (toStr_val error) ;;
  modify (appendText (error_prefix ++ t ++ [10%N])).

(** An [Error] object created by the engine, as opposed to an arbitrary
    thrown value. *)
Definition engine_error (e : thrown) : bool :=
  match e with
  | TypeError | SyntaxError => true
  | ThrownValue _ => false
  end.

(** A computation that throws nothing but engine errors. *)
Definition throws_errors_only {A : Type} (m : M A) : Prop :=
  forall w w' e, m w = (w', Throw e) -> engine_error e = true.

Section Send.

(** [JSON.parse]: [None] is a [SyntaxError]. *)
Variable JSON_parse : jsstring -> option json.

(** The body of the [try] block of [send]; the flush it may start is
    returned next to the writer. *)
Definition send_try (now : Z) (data : jsval) : M (option Flush) :=
  message <- lift (match data with
                   | Some (JStr s) =>
                       match JSON_parse s with
                       | Some j => Normal (Some j)
                       | None => Throw SyntaxError
                       end
                   | _ => Normal data
                   end) ;;
  ty <- lift (getProp message (lit "type")) ;;
  (if is_lit ty "session-created" then handleSessionCreated message
   else if is_lit ty "claude-response" then
     d <- lift (getProp message (lit "data")) ;; handleClaudeResponse d
   else if is_lit ty "claude-output" then
     d <- lift (getProp message (lit "data")) ;; handleClaudeOutput d
   else if is_lit ty "claude-error" then
     e <- lift (getProp message (lit "error")) ;; handleError e
   else ret tt) ;;;
  (fun w => let '(w1, f) := flushIfNeeded now w in (w1, Normal f)).

(** What [send] hands back to its caller: the flush it started, if any,
    and the error its [catch] clause logged, if any. *)
Record SendResult := mkSendResult {
  started : option Flush;
  logged : option thrown
}.

(** [send(data)]: the [try] block, and the [catch] clause that reads
    [error.message] and logs it. *)
Definition send (now : Z) (data : jsval) : M SendResult :=
  fun w =>
    match send_try now data w with
    | (w1, Normal f) => (w1, Normal (mkSendResult f None))
    | (w1, Throw e) =>
        match error_message e with
        | Normal _ => (w1, Normal (mkSendResult None (Some e)))
        | Throw e' => (w1, Throw e')
        end
    end.

(** The writer together with the calls of [flush] that are suspended at
    an [await] (oldest first; nothing keeps a second flush from starting
    while one is in flight) and the chunks the send primitive has
    accepted, in order. *)
Record Aggregator := mkAggregator {
  writer : Writer;
  inflight : list Flush;
  delivered : list jsstring
}.

(** What the event loop runs on a writer: a call of [send] by the process
    runner, the callback of the auto-flush timer, a call of [complete],
    and the resumption of a suspended flush after the send of its head
    chunk has succeeded (and the pacing delay has elapsed) or thrown. *)
Inductive Event :=
| Send (now : Z) (data : jsval)
| TimerFired (now : Z)
| Complete (now : Z)
| ChunkSent (k : nat)
| ChunkFailed (k : nat).

Definition start_flush (r : Writer * option Flush) (a : Aggregator) : Aggregator :=
  mkAggregator r.1 (inflight a ++ option_list r.2) (delivered a).

(** One turn of the event loop.  The timer callback runs only while its
    timer is armed and due; a chunk result for a flush that is not in
    flight does not occur. *)
Definition agg_step (a : Aggregator) (ev : Event) : Aggregator :=
  match ev with
  | Send now data =>
      match send now data (writer a) with
      | (w, Normal r) => start_flush (w, started r) a
      | (w, Throw _) => start_flush (w, None) a
      end
  | TimerFired now =>
      match flushTimer (writer a) with
      | Some t => if (t <=? now)%Z then start_flush (timer_fired now (writer a)) a else a
      | None => a
      end
  | Complete now => start_flush (complete now (writer a)) a
  | ChunkSent k =>
      match inflight a !! k with
      | None => a
      | Some f =>
          match unsent f with
          | [] => mkAggregator (writer a) (delete k (inflight a)) (delivered a)
          | [chunk] =>
              mkAggregator (writer a) (delete k (inflight a)) (delivered a ++ [chunk])
          | chunk :: rest =>
              mkAggregator (writer a)
                (<[k := mkFlush (textToSend f) rest]> (inflight a))
                (delivered a ++ [chunk])
          end
      end
  | ChunkFailed k =>
      match inflight a !! k with
      | None => a
      | Some f =>
          mkAggregator (flush_failed (writer a) f) (delete k (inflight a)) (delivered a)
      end
  end.

Definition agg_run (a : Aggregator) (evs : list Event) : Aggregator :=
  foldl agg_step a evs.

(** The states a run goes through, one after each event. *)
Fixpoint agg_states (a : Aggregator) (evs : list Event) : list Aggregator :=
  match evs with
  | [] => []
  | ev :: rest => agg_step a ev :: agg_states (agg_step a ev) rest
  end.

End Send.

(** A chunk that ends just after a newline or a space. *)
Definition ends_at_boundary (chunk : jsstring) : bool :=
  match last chunk with
  | Some c => N.eqb c newline || N.eqb c space
  | None => false
  end.

(** What one block of a content array contributes to the buffer:
    [block.type === 'text' && block.text], then [appendText(block.text)].
    [None] when the block makes the loop throw: a [null] block, or a text
    that cannot be converted to a string. *)
Definition block_text (block : json) : option jsstring :=
  match block with
  | JNull => None
  | JObj fields =>
      if is_lit (assoc (lit "type") fields) "text" &&
         truthy_val (assoc (lit "text") fields)
      then match toStr_val (assoc (lit "text") fields) with
           | Normal t => Some t
           | Throw _ => None
           end
      else Some []
  | _ => Some []
  end.

(** The texts of the blocks in front of the first one that throws. *)
Fixpoint block_texts (blocks : list json) : list jsstring :=
  match blocks with
  | [] => []
  | block :: rest =>
      match block_text block with
      | Some t => t :: block_texts rest
      | None => []
      end
  end.

(** A computation that only ever appends to the buffer. *)
Definition appends_only {A : Type} (m : M A) : Prop :=
  forall w w' r, m w = (w', r) -> exists t, buffer w' = buffer w ++ t.

End MessageWriter.

(* ===================================================================== *)
(** ** server/claude-cli.js : the process runner and the session registry *)
(* ===================================================================== *)

Module ClaudeCli.
Import Js.

(** A JavaScript [Map] with string keys, as an insertion-ordered list of
    entries ([getActiveClaudeSessions] exposes the order of the keys).
    [set] overwrites the value of a present key in place and appends an
    absent one; [delete] removes the entry of the key. *)
Definition JsMap (V : Type) : Type := list (jsstring * V).

Fixpoint map_set {V : Type} (k : jsstring) (v : V) (m : JsMap V) : JsMap V :=
  match m with
  | [] => [(k, v)]
  | (k', v') :: rest =>
      if bool_decide (k' = k) then (k, v) :: rest
      else (k', v') :: map_set k v rest
  end.

Fixpoint map_delete {V : Type} (k : jsstring) (m : JsMap V) : JsMap V :=
  match m with
  | [] => []
  | (k', v') :: rest =>
      if bool_decide (k' = k) then map_delete k rest
      else (k', v') :: map_delete k rest
  end.

Fixpoint map_get {V : Type} (k : jsstring) (m : JsMap V) : option V :=
  match m with
  | [] => None
  | (k', v') :: rest => if bool_decide (k' = k) then Some v' else map_get k rest
  end.

Definition map_has {V : Type} (k : jsstring) (m : JsMap V) : bool :=
  match map_get k m with Some _ => true | None => false end.

Definition map_keys {V : Type} (m : JsMap V) : list jsstring := fst <$> m.

(** All the values stored under one key. *)
Definition handles_under {V : Type} (k : jsstring) (m : JsMap V) : list V :=
  snd <$> List.filter (fun e => bool_decide (e.1 = k)) m.

Record ToolsSettings := mkToolsSettings {
  allowedTools : list jsstring;
  disallowedTools : list jsstring;
  settings_skipPermissions : bool
}.

(** The fields of [options] that [queryClaude] reads. *)
Record Options := mkOptions {
  sessionId : option jsstring;
  projectPath : option jsstring;
  cwd : option jsstring;
  toolsSettings : option ToolsSettings;
  skipPermissions : bool;
  model : option jsstring;
  permissionMode : option jsstring
}.

(** White space in the sense of [String.prototype.trim]. *)
Definition is_whitespace (c : N) : bool :=
  ((9 <=? c) && (c <=? 13) || (c =? 32) || (c =? 160) || (c =? 5760) ||
   (8192 <=? c) && (c <=? 8202) || (c =? 8232) || (c =? 8233) ||
   (c =? 8239) || (c =? 8287) || (c =? 12288) || (c =? 65279))%N.

(** [command && command.trim()] as a condition. *)
Definition has_prompt (command : option jsstring) : bool :=
  match command with
  | Some s => existsb (fun c => negb (is_whitespace c)) s
  | None => false
  end.

Definition text_of (x : option jsstring) : jsstring := default [] x.

(** The command line built by [queryClaude]. *)
Definition build_args (command : option jsstring) (o : Options) : list jsstring :=
  let settings := default (mkToolsSettings [] [] false) (toolsSettings o) in
  [lit "-p"] ++
  (if truthy (sessionId o) then [lit "--resume=" ++ text_of (sessionId o)] else []) ++
  (if has_prompt command
   then [lit "--output-format"; lit "stream-json"; lit "--verbose"] else []) ++
  (if truthy (permissionMode o) &&
      negb (bool_decide (permissionMode o = Some (lit "default")))
   then [lit "--permission-mode"; text_of (permissionMode o)] else []) ++
  (if skipPermissions o || settings_skipPermissions settings
   then [lit "--dangerously-skip-permissions"] else []) ++
  (match allowedTools settings with
   | [] => []
   | _ :: _ => [lit "--allowed-tools"; join_comma (allowedTools settings)]
   end) ++
  (match disallowedTools settings with
   | [] => []
   | _ :: _ => [lit "--disallowed-tools"; join_comma (disallowedTools settings)]
   end) ++
  (if truthy (model o) then [lit "--model"; text_of (model o)] else []) ++
  (if has_prompt command then [text_of command] else []).

(** A record of the engine's output stream, after [JSON.parse]: its
    [type] discriminator, its [subtype] and its [session_id] (strings
    when present). *)
Record Response := mkResponse {
  rtype : option jsstring;
  subtype : option jsstring;
  session_id : option jsstring
}.

(** One non-blank line of stdout: [NonJson] when [JSON.parse] (or the
    access to [response.type], on a parsed [null]) throws. *)
Inductive StdoutLine :=
| NonJson (line : jsstring)
| Parsed (response : Response).

(** What is passed to [ws.send], before [JSON.stringify]. *)
Inductive WsMessage :=
| SessionCreated (sessionId : option jsstring)
| ClaudeResponse (data : Response)
| ClaudeOutput (data : jsstring)
| ClaudeError (error : jsstring)
| ClaudeComplete (sessionId : option jsstring) (exitCode : option Z) (isNewSession : bool).

Inductive Outcome :=
| Resolved
| Rejected (message : jsstring).

(** The operating-system side of a child process: running, failed to
    start (an [error] event was delivered), exited with its [close]
    handler suspended in the scratch-file cleanup, or fully closed. *)
Inductive ProcStatus := Alive | Failed | Closing | Closed.

(** The closure of one call of [queryClaude], from the spawn on. *)
Record Invocation := mkInvocation {
  options : Options;
  command : option jsstring;
  args : list jsstring;
  capturedSessionId : option jsstring;
  sessionCreatedSent : bool;
  processKey : jsstring;
  sent : list WsMessage;
  status : ProcStatus;
  pendingClose : option (option jsstring * option Z);
  outcome : option Outcome
}.

Definition with_captured (c : option jsstring) (i : Invocation) : Invocation :=
  mkInvocation (options i) (command i) (args i) c (sessionCreatedSent i)
    (processKey i) (sent i) (status i) (pendingClose i) (outcome i).

Definition with_createdSent (b : bool) (i : Invocation) : Invocation :=
  mkInvocation (options i) (command i) (args i) (capturedSessionId i) b
    (processKey i) (sent i) (status i) (pendingClose i) (outcome i).

(** [ws.send(JSON.stringify(m))]. *)
Definition ws_send (m : WsMessage) (i : Invocation) : Invocation :=
  mkInvocation (options i) (command i) (args i) (capturedSessionId i)
    (sessionCreatedSent i) (processKey i) (sent i ++ [m]) (status i)
    (pendingClose i) (outcome i).

Definition with_status (st : ProcStatus) (i : Invocation) : Invocation :=
  mkInvocation (options i) (command i) (args i) (capturedSessionId i)
    (sessionCreatedSent i) (processKey i) (sent i) st (pendingClose i) (outcome i).

Definition with_pendingClose (p : option (option jsstring * option Z))
    (i : Invocation) : Invocation :=
  mkInvocation (options i) (command i) (args i) (capturedSessionId i)
    (sessionCreatedSent i) (processKey i) (sent i) (status i) p (outcome i).

(** [resolve()] and [reject(e)]: a promise settles once. *)
Definition settle (o : Outcome) (i : Invocation) : Invocation :=
  match outcome i with
  | Some _ => i
  | None =>
      mkInvocation (options i) (command i) (args i) (capturedSessionId i)
        (sessionCreatedSent i) (processKey i) (sent i) (status i)
        (pendingClose i) (Some o)
  end.

(** The process handle is the index of the invocation. *)
Definition Registry : Type := JsMap nat.

(** The closure of [queryClaude] at the spawn.  The promise executor
    first awaits [loadGaccodeToken()] and [fs.mkdir(...)]; nothing is
    spawned or registered before it resumes from them.  From there to its
    end it runs without suspension: build the command line, spawn,
    register under [capturedSessionId || Date.now().toString()]. *)
Definition spawn_invocation (now : Z) (cmd : option jsstring) (o : Options) : Invocation :=
  let capturedSessionId := sessionId o in
  let processKey := text_of (or_else capturedSessionId (Some (show_Z now))) in
  mkInvocation o cmd (build_args cmd o) capturedSessionId false processKey
    [] Alive None None.

(** The body of the [for] loop of the stdout handler, for one line. *)
Definition stdout_line (h : nat) (st : Registry * Invocation) (line : StdoutLine)
    : Registry * Invocation :=
  let '(reg, i) := st in
  match line with
  | NonJson raw => (reg, ws_send (ClaudeOutput raw) i)
  | Parsed response =>
      if bool_decide (rtype response = Some (lit "system")) then
        if bool_decide (subtype response = Some (lit "init")) then
          if truthy (session_id response) && negb (truthy (capturedSessionId i)) then
            let i1 := with_captured (session_id response) i in
            let captured := text_of (session_id response) in
            let reg1 :=
              if bool_decide (processKey i1 = captured) then reg
              else map_set captured h (map_delete (processKey i1) reg) in
            if negb (truthy (sessionId (options i1))) && negb (sessionCreatedSent i1)
            then (reg1, ws_send (SessionCreated (capturedSessionId i1))
                          (with_createdSent true i1))
            else (reg1, i1)
          else (reg, i)
        else (reg, i)
      else (reg, ws_send (ClaudeResponse response) i)
  end.

(** The stdout [data] handler on the non-blank lines of one chunk. *)
Definition stdout_data (h : nat) (st : Registry * Invocation) (lines : list StdoutLine)
    : Registry * Invocation :=
  foldl (stdout_line h) st lines.

Definition stderr_data (st : Registry * Invocation) (text : jsstring)
    : Registry * Invocation :=
  (st.1, ws_send (ClaudeError text) st.2).

(** [capturedSessionId || sessionId || processKey]. *)
Definition finalSessionId (i : Invocation) : option jsstring :=
  or_else (capturedSessionId i) (or_else (sessionId (options i)) (Some (processKey i))).

(** [`${code}`]. *)
Definition show_code (code : option Z) : jsstring :=
  match code with
  | Some n => show_Z n
  | None => lit "null"
  end.

(** The [close] handler, declared as [async (code) => ...], up to its
    first [await]: the registry entry is deleted.  The handler takes the
    exit code only; the signal the runtime passes next to it is not
    bound. *)
Definition close_begin (st : Registry * Invocation) (code : option Z)
    (signal : option jsstring) : Registry * Invocation :=
  let '(reg, i) := st in
  let final := finalSessionId i in
  (map_delete (text_of final) reg,
   with_pendingClose (Some (final, code)) (with_status Closing i)).

(** The [close] handler after the cleanup: the completion message and the
    settlement of the promise. *)
Definition close_finish (i : Invocation) : Invocation :=
  match pendingClose i with
  | None => i
  | Some (final, code) =>
      let i1 := ws_send (ClaudeComplete final code
                   (negb (truthy (sessionId (options i))) && truthy (command i))) i in
      let i2 := with_pendingClose None (with_status Closed i1) in
      if bool_decide (code = Some 0%Z) then settle Resolved i2
      else settle (Rejected (lit "Claude CLI exited with code " ++ show_code code)) i2
  end.

(** The whole [close] handler, when nothing interleaves with its
    cleanup. *)
Definition on_close (st : Registry * Invocation) (code : option Z)
    (signal : option jsstring) : Registry * Invocation :=
  let '(reg, i) := close_begin st code signal in (reg, close_finish i).

(** The [error] handler. *)
Definition on_error (st : Registry * Invocation) (message : jsstring)
    : Registry * Invocation :=
  let '(reg, i) := st in
  (map_delete (text_of (finalSessionId i)) reg,
   settle (Rejected message) (ws_send (ClaudeError message) (with_status Failed i))).

(** The module state: the registry and every invocation started so far. *)
Record System := mkSystem {
  activeClaudeProcesses : Registry;
  invocations : list Invocation
}.

Definition initial : System := mkSystem [] [].

(** [queryClaude], as the step it adds to the event loop: the part of
    its promise executor that runs when the two awaits before the spawn
    have returned.  Until then a call has registered nothing. *)
Definition queryClaude (now : Z) (cmd : option jsstring) (o : Options) (s : System)
    : System :=
  let i := spawn_invocation now cmd o in
  let h := length (invocations s) in
  mkSystem (map_set (processKey i) h (activeClaudeProcesses s)) (invocations s ++ [i]).

(** Run a handler of the invocation behind handle [h]. *)
Definition at_handle (h : nat)
    (f : Registry * Invocation -> Registry * Invocation) (s : System) : System :=
  match invocations s !! h with
  | None => s
  | Some i =>
      let '(reg, i') := f (activeClaudeProcesses s, i) in
      mkSystem reg (<[h := i']> (invocations s))
  end.

(** [abortClaudeSession]: the [SIGTERM] it sends shows later, as the
    [close] event of the process. *)
Definition abortClaudeSession (key : jsstring) (s : System) : System * bool :=
  match map_get key (activeClaudeProcesses s) with
  | Some _ => (mkSystem (map_delete key (activeClaudeProcesses s)) (invocations s), true)
  | None => (s, false)
  end.

Definition isClaudeSessionActive (key : jsstring) (s : System) : bool :=
  map_has key (activeClaudeProcesses s).

Definition getActiveClaudeSessions (s : System) : list jsstring :=
  map_keys (activeClaudeProcesses s).

(** The event loop: one step is one handler run between two suspension
    points ([step_spawn] is the resumption of a call of [queryClaude] at
    its spawn).  The premises are the order in which the runtime delivers the
    events of a child process: output only while it runs, [close] once,
    after which nothing else; an [error] event stands for a failure to
    start, after which at most [close] follows. *)
Inductive step : System -> System -> Prop :=
| step_spawn now cmd o s :
    step s (queryClaude now cmd o s)
| step_stdout h i lines s :
    invocations s !! h = Some i -> status i = Alive ->
    step s (at_handle h (fun st => stdout_data h st lines) s)
| step_stderr h i text s :
    invocations s !! h = Some i -> status i = Alive ->
    step s (at_handle h (fun st => stderr_data st text) s)
| step_close_begin h i code signal s :
    invocations s !! h = Some i -> status i = Alive \/ status i = Failed ->
    step s (at_handle h (fun st => close_begin st code signal) s)
| step_close_finish h i s :
    invocations s !! h = Some i -> status i = Closing ->
    step s (at_handle h (fun st => (st.1, close_finish st.2)) s)
| step_error h i message s :
    invocations s !! h = Some i -> status i = Alive ->
    step s (at_handle h (fun st => on_error st message) s)
| step_abort key s :
    step s (abortClaudeSession key s).1.

Definition reachable (s : System) : Prop := rtc step initial s.

(** The number of [session-created] messages among those sent. *)
Definition is_session_created (m : WsMessage) : bool :=
  match m with SessionCreated _ => true | _ => false end.

Definition count_created (ms : list WsMessage) : nat :=
  length (List.filter is_session_created ms).

(** An [init] record that carries a session id. *)
Definition is_init_with_id (line : StdoutLine) : bool :=
  match line with
  | Parsed r =>
      bool_decide (rtype r = Some (lit "system")) &&
      bool_decide (subtype r = Some (lit "init")) &&
      truthy (session_id r)
  | NonJson _ => false
  end.

(** The events of one child process, as its handlers see them. *)
Inductive ProcEvent :=
| Stdout (lines : list StdoutLine)
| Stderr (text : jsstring)
| Close (code : option Z) (signal : option jsstring)
| Error (message : jsstring).

Definition handle_event (h : nat) (st : Registry * Invocation) (ev : ProcEvent)
    : Registry * Invocation :=
  match ev with
  | Stdout lines => stdout_data h st lines
  | Stderr text => stderr_data st text
  | Close code signal => on_close st code signal
  | Error message => on_error st message
  end.

Definition stdout_lines (evs : list ProcEvent) : list StdoutLine :=
  concat (omap (fun ev => match ev with Stdout ls => Some ls | _ => None end) evs).

(** The [session-created] message that a line gives rise to when it is
    the first [init] record with a session id of a fresh session. *)
Definition announced_by (line : StdoutLine) : list WsMessage :=
  match line with
  | Parsed r => if is_init_with_id line then [SessionCreated (session_id r)] else []
  | NonJson _ => []
  end.

Definition first_announcement (lines : list StdoutLine) : list WsMessage :=
  match List.find is_init_with_id lines with
  | Some line => announced_by line
  | None => []
  end.

(** The key under which the handlers of an invocation look for its
    registry entry. *)
Definition current_key (i : Invocation) : jsstring := text_of (finalSessionId i).

(** What holds of the closure of every invocation: as long as no id is
    captured none was supplied and no [session-created] was sent, and the
    promise of a running process is unsettled. *)
Definition closure_ok (i : Invocation) : Prop :=
  (truthy (capturedSessionId i) = false ->
     truthy (sessionId (options i)) = false /\ sessionCreatedSent i = false) /\
  (status i = Alive -> outcome i = None).

(** A registry entry is backed by a running process that is registered
    under its current key. *)
Definition entry_ok (s : System) (e : jsstring * nat) : Prop :=
  exists i, invocations s !! e.2 = Some i /\ status i = Alive /\ current_key i = e.1.

Definition registry_ok (s : System) : Prop :=
  NoDup (map_keys (activeClaudeProcesses s)) /\
  Forall (entry_ok s) (activeClaudeProcesses s) /\
  Forall closure_ok (invocations s).

(** What a handler of the invocation behind handle [h] may rely on ... *)
Definition handler_pre (h : nat) (reg : Registry) (i : Invocation) : Prop :=
  NoDup (map_keys reg) /\ closure_ok i /\
  forall e, e ∈ reg -> e.2 = h -> status i = Alive /\ current_key i = e.1.

(** ... and what it has to establish: the entries of other handles come
    from the registry before, and an entry of [h] is under the current
    key of a running process. *)
Definition handler_post (h : nat) (reg reg' : Registry) (i' : Invocation) : Prop :=
  NoDup (map_keys reg') /\ closure_ok i' /\
  forall e, e ∈ reg' ->
    (e.2 <> h /\ e ∈ reg) \/ (e.2 = h /\ status i' = Alive /\ current_key i' = e.1).

Definition lines_of (ev : ProcEvent) : list StdoutLine :=
  match ev with Stdout ls => ls | _ => [] end.

(** What the stdout handler forwards for a line, the [session-created]
    announcement apart: raw text for a line that is not JSON, the record
    itself for every type but [system]. *)
Definition forwarded (line : StdoutLine) : option WsMessage :=
  match line with
  | NonJson raw => Some (ClaudeOutput raw)
  | Parsed r =>
      if bool_decide (rtype r = Some (lit "system")) then None
      else Some (ClaudeResponse r)
  end.

Definition not_session_created (m : WsMessage) : bool := negb (is_session_created m).

End ClaudeCli.

(* ===================================================================== *)
(** ** The persisted-record store (feishuDb) *)
(* ===================================================================== *)

Module FeishuDb.
Import Js.

(** A row of the [feishu_sessions] table (columns of
    server/database/init.sql). *)
Record SessionRecord := mkSessionRecord {
  id : Z;
  conversation_id : jsstring;
  feishu_id : jsstring;
  session_type : jsstring;
  project_path : jsstring;
  claude_session_id : option jsstring;
  user_id : Z;
  last_activity : Z;
  is_active : bool
}.

Definition Store : Type := list SessionRecord.

Definition with_claude_session_id (c : option jsstring) (r : SessionRecord)
    : SessionRecord :=
  mkSessionRecord (id r) (conversation_id r) (feishu_id r) (session_type r)
    (project_path r) c (user_id r) (last_activity r) (is_active r).

Definition with_last_activity (t : Z) (r : SessionRecord) : SessionRecord :=
  mkSessionRecord (id r) (conversation_id r) (feishu_id r) (session_type r)
    (project_path r) (claude_session_id r) (user_id r) t (is_active r).

(** Modelled from the spec: server/database/db.js, which implements
    [getSession], is not among the sources.  "get-by-conversation-key":
    the row of the conversation ([conversation_id] is UNIQUE). *)
Definition getSession (conversationId : jsstring) (db : Store) : option SessionRecord :=
  List.find (fun r => bool_decide (conversation_id r = conversationId)) db.

(** Modelled from the spec: server/database/db.js, which implements
    [updateSessionActivity], is not among the sources.
    "update-last-activity" of the row with the given id. *)
Definition updateSessionActivity (now : Z) (sessionId : Z) (db : Store) : Store :=
  (fun r => if bool_decide (id r = sessionId) then with_last_activity now r else r) <$> db.

(** Modelled from the spec: server/database/db.js, which implements
    [updateClaudeSessionId], is not among the sources.
    "update-process-session-id" of the row with the given id. *)
Definition updateClaudeSessionId (sessionId : Z) (claudeSessionId : option jsstring)
    (db : Store) : Store :=
  (fun r => if bool_decide (id r = sessionId)
            then with_claude_session_id claudeSessionId r else r) <$> db.

Definition next_id (db : Store) : Z :=
  (1 + foldr Z.max 0 (id <$> db))%Z.

(** Modelled from the spec: server/database/db.js, which implements
    [createSession], is not among the sources.  "create": a new active
    row with an AUTOINCREMENT id, returned to the caller. *)
Definition createSession (now : Z) (conversationId feishuId sessionType projectPath : jsstring)
    (userId : Z) (claudeSessionId : option jsstring) (db : Store)
    : Store * SessionRecord :=
  let r := mkSessionRecord (next_id db) conversationId feishuId sessionType
             projectPath claudeSessionId userId now true in
  (db ++ [r], r).

(** Modelled from the spec: server/database/db.js, which implements
    [clearAllClaudeSessionIds], is not among the sources.
    "clear-all-process-session-ids"; the result counts the rows changed. *)
Definition clearAllClaudeSessionIds (db : Store) : Store * nat :=
  (with_claude_session_id None <$> db,
   length (List.filter (fun r => bool_decide (claude_session_id r <> None)) db)).

(** Every persisted process-session id is null. *)
Definition all_cleared (db : Store) : bool :=
  forallb (fun r => bool_decide (claude_session_id r = None)) db.

End FeishuDb.

(* ===================================================================== *)
(** ** server/lib/feishu-session.js : FeishuSessionManager *)
(* ===================================================================== *)

Module SessionManager.
Import Js.
Import FeishuDb.

Inductive result (A : Type) :=
| Ok (a : A)
| Err (message : jsstring).
Arguments Ok {A} a.
Arguments Err {A} message.

Record Message := mkMessage {
  chat_type : option jsstring;
  chat_id : option jsstring
}.

(** The fields of an incoming event the manager reads:
    [event.message] and [event.sender?.sender_id?.open_id]. *)
Record Event := mkEvent {
  message : option Message;
  sender_open_id : option jsstring
}.

Record Manager := mkManager {
  userId : Z;
  baseDir : jsstring
}.

Definition unknown_chat_type (chatType : option jsstring) : jsstring :=
  lit "Unknown chat type: " ++ default (lit "undefined") chatType.

Definition getConversationId (event : Event) : result jsstring :=
  match message event with
  | None => Err (lit "No message in event")
  | Some m =>
      if bool_decide (chat_type m = Some (lit "p2p")) then
        if truthy (sender_open_id event)
        then Ok (lit "user-" ++ default [] (sender_open_id event))
        else Err (lit "No sender ID in private chat")
      else if bool_decide (chat_type m = Some (lit "group")) then
        if truthy (chat_id m)
        then Ok (lit "group-" ++ default [] (chat_id m))
        else Err (lit "No chat ID in group chat")
      else Err (unknown_chat_type (chat_type m))
  end.

Definition getFeishuId (event : Event) : result jsstring :=
  match message event with
  | None => Err (lit "No message in event")
  | Some m =>
      if bool_decide (chat_type m = Some (lit "p2p")) then
        if truthy (sender_open_id event)
        then Ok (default [] (sender_open_id event))
        else Err (lit "No sender ID in private chat")
      else if bool_decide (chat_type m = Some (lit "group")) then
        if truthy (chat_id m)
        then Ok (default [] (chat_id m))
        else Err (lit "No chat ID in group chat")
      else Err (unknown_chat_type (chat_type m))
  end.

Definition getSessionType (event : Event) : result jsstring :=
  match message event with
  | None => Err (lit "No message in event")
  | Some m =>
      if bool_decide (chat_type m = Some (lit "p2p")) then Ok (lit "private")
      else if bool_decide (chat_type m = Some (lit "group")) then Ok (lit "group")
      else Err (unknown_chat_type (chat_type m))
  end.

(** What the file system answers while a new session is provisioned:
    [ensureDirectoryExists] may throw (an [fs.access] error other than
    ENOENT, or a failing [mkdir]); the git initialisation and the project
    registration never make [getOrCreateSession] fail. *)
Record Provisioning := mkProvisioning {
  resolve : jsstring -> jsstring;
  directory_error : option jsstring
}.

(** [getOrCreateSession(event)], on the store [db] at time [now]. *)
Definition getOrCreateSession (mgr : Manager) (fs : Provisioning) (now : Z)
    (event : Event) (db : Store) : Store * result SessionRecord :=
  match getConversationId event with
  | Err e => (db, Err e)
  | Ok conversationId =>
  match getFeishuId event with
  | Err e => (db, Err e)
  | Ok feishuId =>
  match getSessionType event with
  | Err e => (db, Err e)
  | Ok sessionType =>
      match getSession conversationId db with
      | Some session =>
          (updateSessionActivity now (id session) db, Ok session)
      | None =>
          let absolutePath := resolve fs (baseDir mgr ++ lit "/" ++ conversationId) in
          match directory_error fs with
          | Some e => (db, Err e)
          | None =>
              let '(db1, session) :=
                createSession now conversationId feishuId sessionType absolutePath
                  (userId mgr) None db in
              (db1, Ok session)
          end
      end
  end end end.

(** [isSessionBusy(session)], against the registry of the process
    runner. *)
Definition isSessionBusy (session : option SessionRecord) (sys : ClaudeCli.System) : bool :=
  match session with
  | None => false
  | Some s =>
      if negb (truthy (claude_session_id s)) then false
      else ClaudeCli.isClaudeSessionActive (default [] (claude_session_id s)) sys
  end.

Definition updateClaudeSessionId (sessionId : Z) (claudeSessionId : option jsstring)
    (db : Store) : Store :=
  FeishuDb.updateClaudeSessionId sessionId claudeSessionId db.

End SessionManager.

(* ===================================================================== *)
(** ** server/feishu-ws.js : FeishuService.start *)
(* ===================================================================== *)

Module FeishuService.
Import Js.
Import FeishuDb.

Record Client := mkClient {
  appId : jsstring;
  appSecret : jsstring;
  accepting : bool
}.

Record Service := mkService {
  client : option Client;
  sessionManager : option SessionManager.Manager;
  userId : option Z;
  isRunning : bool
}.

(** [new FeishuService()]. *)
Definition constructor : Service := mkService None None None false.

(** What the service finds around it when it starts: the first user of
    the users table, the Feishu credentials (from the credentials table
    or else the environment), and whether the connection of the client
    can be opened. *)
Record Environment := mkEnvironment {
  first_user : option Z;
  credentials : option (jsstring * jsstring);
  connect_error : option jsstring
}.

(** [loadConfig()].  [initializeDatabase] runs the CREATE ... IF NOT
    EXISTS statements of init.sql, which leave existing rows alone. *)
Definition loadConfig (env : Environment) (svc : Service)
    : Service * SessionManager.result (jsstring * jsstring) :=
  match first_user env with
  | None => (svc, SessionManager.Err (lit "No user found. Please create a user first."))
  | Some uid =>
      let svc1 := mkService (client svc) (sessionManager svc) (Some uid) (isRunning svc) in
      match credentials env with
      | None => (svc1, SessionManager.Err (lit "Feishu credentials not found."))
      | Some c => (svc1, SessionManager.Ok c)
      end
  end.

(** [start()]: the service and the store after the call, and the error
    it rethrows, if any.  The client accepts messages once its [start]
    has returned. *)
Definition start (env : Environment) (svc : Service) (db : Store)
    : Service * Store * option jsstring :=
  if isRunning svc then (svc, db, None)
  else
    match loadConfig env svc with
    | (svc1, SessionManager.Err e) => (svc1, db, Some e)
    | (svc1, SessionManager.Ok (app_id, app_secret)) =>
        let mgr := SessionManager.mkManager (default 0%Z (userId svc1)) (lit "./feicc") in
        let svc2 := mkService (Some (mkClient app_id app_secret false)) (Some mgr)
                      (userId svc1) (isRunning svc1) in
        match connect_error env with
        | Some e => (svc2, db, Some e)
        | None =>
            (mkService (Some (mkClient app_id app_secret true)) (Some mgr)
               (userId svc2) true, db, None)
        end
    end.

(** [stop()]: nothing when the service does not run; otherwise the client
    is stopped and [isRunning] reset.  An error of [client.stop()] is
    caught and logged, and leaves [isRunning] as it was. *)
Definition stop (stop_error : option jsstring) (svc : Service) : Service * option jsstring :=
  if negb (isRunning svc) then (svc, None)
  else
    match client svc, stop_error with
    | Some _, Some e => (svc, Some e)
    | Some c, None =>
        (mkService (Some (mkClient (appId c) (appSecret c) false))
           (sessionManager svc) (userId svc) false, None)
    | None, _ => (mkService None (sessionManager svc) (userId svc) false, None)
    end.

End FeishuService.

(* ===================================================================== *)
(** * Properties *)

(* ===================================================================== *)

Import Js.

(** ** splitMessage *)

Section SplitMessage.
Import MessageWriter.

Lemma lastIndexOf_scan_bounds c s position i found :
  (-1 <= found < Z.of_nat i)%Z ->
  (-1 <= lastIndexOf_scan c s position i found)%Z /\
  (lastIndexOf_scan c s position i found <= Z.of_nat position \/
   lastIndexOf_scan c s position i found = found)%Z.
Proof.
  revert i found. induction s as [|x rest IH]; intros i found Hf; simpl.
  - lia.
  - destruct (Nat.ltb_spec position i) as [Hlt|Hge]; [lia|].
    destruct (N.eqb x c).
    + destruct (IH (S i) (Z.of_nat i)) as [H1 H2]; lia.
    + destruct (IH (S i) found) as [H1 H2]; lia.
Qed.

Lemma lastIndexOf_bounds c s position :
  (-1 <= lastIndexOf c s position <= Z.of_nat position)%Z.
Proof.
  unfold lastIndexOf.
  destruct (lastIndexOf_scan_bounds c s position 0 (-1)) as [H1 H2]; lia.
Qed.

(** Every split point lies in [1 .. maxLength + 1]. *)
Lemma splitIndex_range remaining maxLength :
  1 <= maxLength ->
  1 <= splitIndex remaining maxLength <= maxLength + 1.
Proof.
  intros Hn. unfold splitIndex, in_trailing_fifth.
  pose proof (lastIndexOf_bounds newline remaining maxLength).
  pose proof (lastIndexOf_bounds space remaining maxLength).
  repeat case_match; lia.
Qed.

(** With a bound of at least one, the loop returns within
    [length remaining + 1] turns, and it only cuts: what it returns
    concatenates to what it was given. *)
Lemma splitLoop_concat fuel maxLength remaining chunks :
  1 <= maxLength ->
  length remaining < fuel ->
  exists out, splitLoop fuel maxLength remaining chunks = Some out /\
              concat out = concat chunks ++ remaining.
Proof.
  intros Hn. revert remaining chunks.
  induction fuel as [|fuel IH]; intros remaining chunks Hfuel; [lia|].
  simpl. destruct (Nat.eqb_spec (length remaining) 0) as [H0|H0].
  - exists chunks. split; [done|].
    destruct remaining; [by rewrite app_nil_r | done].
  - destruct (Nat.leb_spec (length remaining) maxLength) as [Hle|Hgt].
    + exists (chunks ++ [remaining]). split; [done|].
      by rewrite concat_app; simpl; rewrite app_nil_r.
    + pose proof (splitIndex_range remaining maxLength Hn) as Hk.
      destruct (IH (substring_from (splitIndex remaining maxLength) remaining)
                   (chunks ++ [substring_to (splitIndex remaining maxLength) remaining]))
        as (out & Hout & Hcat).
      { unfold substring_from. rewrite length_skipn. lia. }
      exists out. split; [done|].
      rewrite Hcat, concat_app. simpl. rewrite app_nil_r, <- app_assoc.
      unfold substring_to, substring_from. by rewrite firstn_skipn.
Qed.

(** More fuel than the loop needs does not change its result. *)
Lemma splitLoop_fuel_irrelevant fuel fuel' maxLength remaining chunks out :
  splitLoop fuel maxLength remaining chunks = Some out ->
  fuel <= fuel' ->
  splitLoop fuel' maxLength remaining chunks = Some out.
Proof.
  revert fuel' remaining chunks.
  induction fuel as [|fuel IH]; intros fuel' remaining chunks Hrun Hle; [done|].
  destruct fuel' as [|fuel']; [lia|].
  simpl in *. repeat case_match; try done.
  apply IH; [done | lia].
Qed.

(** With a bound of zero the loop never leaves a non-empty text. *)
Lemma splitLoop_zero_bound_diverges fuel c remaining chunks :
  splitLoop fuel 0 (c :: remaining) chunks = None.
Proof.
  assert (splitIndex (c :: remaining) 0 = 0) as Hk.
  { unfold splitIndex, in_trailing_fifth.
    pose proof (lastIndexOf_bounds newline (c :: remaining) 0).
    pose proof (lastIndexOf_bounds space (c :: remaining) 0).
    destruct (Z.ltb_spec (4 * Z.of_nat 0) (5 * lastIndexOf newline (c :: remaining) 0));
      [lia|].
    destruct (Z.ltb_spec (4 * Z.of_nat 0) (5 * lastIndexOf space (c :: remaining) 0));
      [lia|done]. }
  revert chunks. induction fuel as [|fuel IH]; intros chunks; [done|].
  cbn [splitLoop]. rewrite Hk. simpl. apply IH.
Qed.

(** With a bound of at least one the whole function returns, and it only
    cuts. *)
Lemma splitMessage_concat (text : jsstring) (n fuel : nat) :
  1 <= n ->
  length text < fuel ->
  exists chunks, splitMessage fuel text n = Some chunks /\ concat chunks = text.
Proof.
  intros Hn Hfuel. unfold splitMessage.
  destruct (Nat.leb_spec (length text) n) as [Hle|Hgt].
  - exists [text]. split; [done|]. simpl. by rewrite app_nil_r.
  - destruct (splitLoop_concat fuel n text [] Hn Hfuel) as (out & Hout & Hcat).
    by exists out.
Qed.

(** C5: for every text and every chunk bound [n >= 1], [splitMessage]
    returns (within [length text + 1] turns of its loop), and the
    concatenation of its chunks, in order, is exactly the text: nothing
    is dropped, duplicated or reordered. *)
Theorem splitMessage_roundtrip (text : jsstring) (n fuel : nat) :
  1 <= n ->
  length text < fuel ->
  exists chunks, splitMessage fuel text n = Some chunks /\ concat chunks = text.
Proof. apply splitMessage_concat. Qed.

Lemma splitMessage_roundtrip_witness :
  splitMessage 12 (lit "hello world") 4
    = Some [lit "hell"; lit "o wo"; lit "rld"] /\
  exists chunks, splitMessage 12 (lit "hello world") 4 = Some chunks /\
                 concat chunks = lit "hello world".
Proof.
  split; [reflexivity|].
  apply (splitMessage_roundtrip (lit "hello world") 4 12); vm_compute; lia.
Defined.

(** With the default bound the split always returns within the fuel that
    [flush] gives it. *)
Lemma splitMessage_default_total (text : jsstring) :
  exists chunks,
    splitMessage (S (length text)) text defaultMaxLength = Some chunks /\
    concat chunks = text.
Proof. apply splitMessage_concat; unfold defaultMaxLength; lia. Qed.

(** Every chunk the loop adds has at most [maxLength + 1] characters. *)
Lemma splitLoop_chunk_sizes fuel maxLength remaining chunks out :
  1 <= maxLength ->
  splitLoop fuel maxLength remaining chunks = Some out ->
  Forall (fun c => length c <= maxLength + 1) chunks ->
  Forall (fun c => length c <= maxLength + 1) out.
Proof.
  intros Hn. revert remaining chunks.
  induction fuel as [|fuel IH]; intros remaining chunks Hrun Hall; [done|].
  simpl in Hrun.
  destruct (Nat.eqb_spec (length remaining) 0) as [H0|H0]; [by simplify_eq|].
  destruct (Nat.leb_spec (length remaining) maxLength) as [Hle|Hgt].
  - simplify_eq. apply Forall_app. split; [done|].
    apply Forall_singleton. lia.
  - eapply IH; [exact Hrun|].
    apply Forall_app. split; [done|]. apply Forall_singleton.
    unfold substring_to. rewrite length_firstn.
    pose proof (splitIndex_range remaining maxLength Hn). lia.
Qed.

(** The split point of one turn, case by case: just after the last
    newline of the window [(0.8 * maxLength, maxLength]], else just after
    the last space of that window, else at [maxLength]. *)
Lemma splitIndex_cases remaining maxLength :
  let nl := lastIndexOf newline remaining maxLength in
  let sp := lastIndexOf space remaining maxLength in
  ((4 * Z.of_nat maxLength < 5 * nl)%Z /\
     Z.of_nat (splitIndex remaining maxLength) = (nl + 1)%Z) \/
  ((5 * nl <= 4 * Z.of_nat maxLength)%Z /\ (4 * Z.of_nat maxLength < 5 * sp)%Z /\
     Z.of_nat (splitIndex remaining maxLength) = (sp + 1)%Z) \/
  ((5 * nl <= 4 * Z.of_nat maxLength)%Z /\ (5 * sp <= 4 * Z.of_nat maxLength)%Z /\
     splitIndex remaining maxLength = maxLength).
Proof.
  intros nl sp. unfold splitIndex, in_trailing_fifth. fold nl sp.
  pose proof (lastIndexOf_bounds newline remaining maxLength).
  pose proof (lastIndexOf_bounds space remaining maxLength).
  destruct (Z.ltb_spec (4 * Z.of_nat maxLength) (5 * nl)) as [H1|H1].
  - left. split; [done|]. fold nl in H. lia.
  - destruct (Z.ltb_spec (4 * Z.of_nat maxLength) (5 * sp)) as [H2|H2].
    + right; left. fold sp in H0. lia.
    + right; right. done.
Qed.

(** The two worked splits of the 5,000-character bound: 12,000
    characters without a newline or space are cut at 5,000 and 10,000; *)
Lemma splitMessage_12000_no_boundary :
  fmap (M := list) length <$> splitMessage 12001 (replicate 12000 65%N) 5000
    = Some [5000; 5000; 2000].
Proof. vm_compute. reflexivity. Qed.

(** and a newline at index 4,200 moves the first cut to 4,201. *)
Lemma splitMessage_newline_at_4200 :
  fmap (M := list) length <$>
    splitMessage 12001 (replicate 4200 65%N ++ [newline] ++ replicate 7799 65%N) 5000
    = Some [4201; 5000; 2799].
Proof. vm_compute. reflexivity. Qed.

(** C7 (failing input): a text of 5,011 characters whose only newline is
    at index 5,000 is cut after that newline, so the first chunk has
    5,001 characters, one more than the bound of 5,000. *)
Theorem splitMessage_chunk_exceeds_bound :
  splitMessage 5012 (replicate 5000 65%N ++ [newline] ++ replicate 10 66%N) 5000
    = Some [replicate 5000 65%N ++ [newline]; replicate 10 66%N] /\
  length (replicate 5000 65%N ++ [newline]) = 5001.
Proof. split; vm_compute; reflexivity. Qed.

End SplitMessage.

(** ** flush and its failure path *)

Section Flush.
Import MessageWriter.

(** A flush of a non-empty buffer captures the whole buffer, empties it,
    and holds chunks that concatenate to the captured text. *)
Lemma flush_captures now w w1 f :
  flush now w = (w1, Some f) ->
  buffer w <> [] /\ buffer w1 = [] /\ textToSend f = buffer w /\
  concat (unsent f) = buffer w.
Proof.
  unfold flush. destruct (buffer w) as [|c b] eqn:Hb; [done|].
  intros [= <- <-]. simpl. rewrite Hb.
  destruct (splitMessage_default_total (c :: b)) as (chunks & -> & Hcat).
  done.
Qed.

Lemma flush_of_nonempty now w :
  buffer w <> [] -> exists w1 f, flush now w = (w1, Some f).
Proof.
  unfold flush. destruct (buffer w) as [|c b] eqn:Hb; [done|]. eauto.
Qed.

(** C6 (failing input): two sends and a timer.  The first send, 3.5 s
    after the writer was made, buffers [AAA] and starts a flush; the
    second, 0.1 s later, buffers [BBB] and arms the timer; the timer
    fires while the first flush is still waiting for its send and starts
    a second flush, of [BBB].  Then both sends fail, in the order they
    were started.  Each [catch] clause puts its text in front of the live
    buffer, which is left holding [BBBAAA]: the text appended first comes
    last.  No timer is armed and no flush is in flight, so nothing will
    send that text unless another call arrives. *)
Theorem overlapping_flush_failures_reorder :
  let parse := fun _ : jsstring => @None json in
  let output t := Some (JObj [(lit "type", JStr (lit "claude-output"));
                              (lit "data", JStr (lit t))]) in
  let a0 := mkAggregator (constructor 0 (lit "chat") None) [] [] in
  let a2 := agg_run parse a0 [Send 3500 (output "AAA"); Send 3600 (output "BBB")] in
  let a3 := agg_step parse a2 (TimerFired 6500) in
  let a5 := agg_run parse a3 [ChunkFailed 0; ChunkFailed 0] in
  ((textToSend <$> inflight a2) = [lit "AAA"] /\
   buffer (writer a2) = lit "BBB" /\ flushTimer (writer a2) = Some 6500%Z) /\
  ((textToSend <$> inflight a3) = [lit "AAA"; lit "BBB"] /\ buffer (writer a3) = []) /\
  buffer (writer a5) = lit "BBBAAA" /\
  inflight a5 = [] /\ delivered a5 = [] /\ flushTimer (writer a5) = None.
Proof. repeat split; vm_compute; reflexivity. Qed.
End Flush.

(** ** send never throws *)

Section SendSafety.
Import MessageWriter.

Lemma ret_errors_only {A : Type} (a : A) : throws_errors_only (ret a).
Proof. intros w w' e. unfold ret. congruence. Qed.

Lemma modify_errors_only f : throws_errors_only (modify f).
Proof. intros w w' e. unfold modify. congruence. Qed.

Lemma getProp_errors_only v k : throws_errors_only (lift (getProp v k)).
Proof.
  intros w w' e. unfold lift, getProp.
  destruct v as [[]|]; intros [= <- <-]; done.
Qed.

Lemma getPropOpt_errors_only v k : throws_errors_only (lift (getPropOpt v k)).
Proof.
  intros w w' e. unfold lift, getPropOpt, getProp.
  destruct v as [[]|]; intros [= <- <-]; done.
Qed.

Lemma bind_errors_only {A B : Type} (m : M A) (k : A -> M B) :
  throws_errors_only m -> (forall a, throws_errors_only (k a)) ->
  throws_errors_only (bind m k).
Proof.
  intros Hm Hk w w' e. unfold bind.
  destruct (m w) as [w1 [a|e1]] eqn:Hmw.
  - apply Hk.
  - intros [= <- <-]. eapply Hm, Hmw.
Qed.

Lemma for_each_errors_only xs body :
  (forall x, throws_errors_only (body x)) ->
  throws_errors_only (for_each xs body).
Proof.
  intros Hbody. induction xs as [|x xs IH]; simpl.
  - apply ret_errors_only.
  - apply bind_errors_only; [apply Hbody | intros _; apply IH].
Qed.

Lemma for_of_errors_only content body :
  (forall x, throws_errors_only (body x)) ->
  throws_errors_only (for_of content body).
Proof.
  intros Hbody. unfold for_of.
  destruct content as [[]|]; try (by apply for_each_errors_only);
    intros w w' e [= <- <-]; done.
Qed.

(** Induction on a JSON value, through the elements of an array. *)
Lemma json_array_ind (P : json -> Prop)
    (Hnull : P JNull) (Hbool : forall b, P (JBool b))
    (Hnum : forall nonzero shown, P (JNum nonzero shown))
    (Hstr : forall s, P (JStr s))
    (Harr : forall items, Forall P items -> P (JArr items))
    (Hobj : forall fields, P (JObj fields)) :
  forall v, P v.
Proof.
  fix IH 1.
  intros [| b | nonzero shown | s | items | fields];
    [exact Hnull | apply Hbool | apply Hnum | apply Hstr | | apply Hobj].
  apply Harr. induction items as [|x rest IHrest]; constructor; [apply IH | apply IHrest].
Qed.

(** A conversion to a string throws nothing but a [TypeError]. *)
Lemma toStr_throws v e : toStr v = Throw e -> e = TypeError.
Proof.
  revert e. induction v as [| [] | | | items IHitems | fields] using json_array_ind;
    intros e; simpl; try congruence.
  - induction IHitems as [|x rest Hx _ IHrest]; [congruence|].
    destruct (match x with JNull => Normal [] | _ => toStr x end) as [sx|ex] eqn:Ex.
    + destruct rest as [|y rest']; [congruence|].
      match goal with |- context [match ?j with Normal _ => _ | Throw _ => _ end] =>
        destruct j as [sr|er] eqn:Hr end; [congruence|].
      intros [= <-]. by apply IHrest.
    + intros [= <-]. destruct x; try congruence; by apply Hx.
  - destruct (assoc (lit "toString") fields); congruence.
Qed.

Lemma toStr_val_errors_only v : throws_errors_only (lift (toStr_val v)).
Proof.
  intros w w' e. unfold lift. intros [= <- Hv].
  destruct v as [j|]; simpl in Hv; [|congruence].
  by rewrite (toStr_throws _ _ Hv).
Qed.

Lemma append_value_errors_only v : throws_errors_only (append_value v).
Proof.
  unfold append_value.
  apply bind_errors_only; [apply toStr_val_errors_only | intros t; apply modify_errors_only].
Qed.

Lemma append_if_truthy_errors_only v : throws_errors_only (append_if_truthy v).
Proof.
  unfold append_if_truthy.
  destruct (truthy_val v); [apply append_value_errors_only | apply ret_errors_only].
Qed.

Create HintDb errors_only.
#[local] Hint Resolve ret_errors_only modify_errors_only getProp_errors_only
  getPropOpt_errors_only toStr_val_errors_only append_value_errors_only
  append_if_truthy_errors_only : errors_only.

Ltac errors_only_step :=
  first
    [ apply bind_errors_only; [| intros ?]
    | apply for_of_errors_only; intros ?
    | match goal with |- throws_errors_only (if ?c then _ else _) => destruct c end
    | solve [auto with errors_only] ].

Lemma handleSessionCreated_errors_only message :
  throws_errors_only (handleSessionCreated message).
Proof. unfold handleSessionCreated. repeat errors_only_step. Qed.

Lemma handleClaudeResponse_errors_only data :
  throws_errors_only (handleClaudeResponse data).
Proof. unfold handleClaudeResponse. repeat errors_only_step. Qed.

Lemma handleClaudeOutput_errors_only data :
  throws_errors_only (handleClaudeOutput data).
Proof.
  unfold handleClaudeOutput.
  destruct data as [[| | | [|c s] | |]|]; auto with errors_only.
Qed.

Lemma handleError_errors_only error : throws_errors_only (handleError error).
Proof. unfold handleError. repeat errors_only_step. Qed.

Lemma send_try_errors_only JSON_parse now data :
  throws_errors_only (send_try JSON_parse now data).
Proof.
  unfold send_try.
  apply bind_errors_only.
  { intros w w' e. unfold lift.
    destruct data as [[| | | s | |]|]; try congruence.
    destruct (JSON_parse s); intros [= <- <-]; done. }
  intros message.
  apply bind_errors_only; [auto with errors_only|]. intros ty.
  apply bind_errors_only.
  - repeat match goal with
           | |- throws_errors_only (if ?c then _ else _) => destruct c
           end;
      auto using handleSessionCreated_errors_only, ret_errors_only;
      (apply bind_errors_only; [auto with errors_only|]; intros ?);
      auto using handleClaudeResponse_errors_only, handleClaudeOutput_errors_only,
                 handleError_errors_only.
  - intros _ w w' e. destruct (flushIfNeeded now w). congruence.
Qed.

(** C10: whatever the payload, and whatever [JSON.parse] does with it,
    [send] completes normally: every exception raised while the payload
    is parsed or dispatched is an error object of the engine, the [catch]
    clause reads its message and logs it, and nothing propagates to the
    caller. *)
Theorem send_never_throws (JSON_parse : jsstring -> option json)
    (now : Z) (data : jsval) (w : Writer) :
  exists w' r,
    send JSON_parse now data w = (w', Normal r) /\
    match logged r with
    | Some e => engine_error e = true /\ started r = None
    | None => True
    end.
Proof.
  unfold send.
  destruct (send_try JSON_parse now data w) as [w1 [f|e]] eqn:Htry.
  - by exists w1, (mkSendResult f None).
  - pose proof (send_try_errors_only _ _ _ _ _ _ Htry) as He.
    destruct e; try done; exists w1; eexists; (split; [reflexivity|done]).
Qed.

(** Three payloads that throw inside [send]: text that is not JSON, the
    JSON value [null], and an assistant message whose content is not
    iterable.  Each is logged and swallowed. *)
Example send_malformed_payloads :
  let parse := fun s : jsstring =>
    if bool_decide (s = lit "null") then Some JNull else None in
  let w := constructor 0 (lit "chat") None in
  send parse 1 (Some (JStr (lit "{oops"))) w
    = (w, Normal (mkSendResult None (Some SyntaxError))) /\
  send parse 1 (Some (JStr (lit "null"))) w
    = (w, Normal (mkSendResult None (Some TypeError))) /\
  send parse 1
    (Some (JObj [(lit "type", JStr (lit "claude-response"));
                 (lit "data", JObj [(lit "type", JStr (lit "assistant"));
                                    (lit "message",
                                     JObj [(lit "content", JNum true (lit "7"))])])])) w
    = (w, Normal (mkSendResult None (Some TypeError))).
Proof. repeat split; vm_compute; reflexivity. Qed.

(** Text that cannot be converted to a string: an error payload and a
    streaming delta whose text is the object [{toString: 1}].  The
    append throws a [TypeError], which [send] logs; nothing is buffered
    and no flush is considered. *)
Example send_unconvertible_text :
  let parse := fun _ : jsstring => @None json in
  let odd := JObj [(lit "toString", JNum true (lit "1"))] in
  let w := constructor 0 (lit "chat") None in
  send parse 1 (Some (JObj [(lit "type", JStr (lit "claude-error"));
                            (lit "error", odd)])) w
    = (w, Normal (mkSendResult None (Some TypeError))) /\
  send parse 1
    (Some (JObj [(lit "type", JStr (lit "claude-response"));
                 (lit "data", JObj [(lit "type", JStr (lit "text_delta"));
                                    (lit "delta", JObj [(lit "text", JArr [odd])])])])) w
    = (w, Normal (mkSendResult None (Some TypeError))).
Proof. split; vm_compute; reflexivity. Qed.

End SendSafety.

(** ** The process runner: exit handling *)

Section ExitHandling.
Import ClaudeCli.

(** A zero exit code resolves the promise of a running invocation. *)
Lemma close_zero_resolves reg i signal :
  outcome i = None ->
  outcome (on_close (reg, i) (Some 0%Z) signal).2 = Some Resolved.
Proof. intros Hout. unfold on_close, close_finish, settle. simpl. by rewrite Hout. Qed.

(** Any other exit code rejects it, with the code in the message. *)
Lemma close_nonzero_rejects reg i (n : Z) signal :
  outcome i = None -> n <> 0%Z ->
  outcome (on_close (reg, i) (Some n) signal).2
    = Some (Rejected (lit "Claude CLI exited with code " ++ show_Z n)).
Proof.
  intros Hout Hn. unfold on_close, close_finish, settle. simpl.
  rewrite bool_decide_eq_false_2 by congruence. simpl. by rewrite Hout.
Qed.

(** The handler does not look at the signal: for a process terminated by
    a signal (exit code [null]) the message is the same whatever the
    signal is. *)
Lemma close_ignores_signal st code signal signal' :
  on_close st code signal = on_close st code signal'.
Proof. by destruct st. Qed.

Lemma close_null_code_message reg i signal :
  outcome i = None ->
  outcome (on_close (reg, i) None signal).2
    = Some (Rejected (lit "Claude CLI exited with code null")).
Proof. intros Hout. unfold on_close, close_finish, settle. simpl. by rewrite Hout. Qed.

(** C1 (failing input): a fresh session is started, registered, and its
    process is terminated by SIGTERM, so that [close] is delivered with
    the exit code [null] and the signal [SIGTERM].  The promise is
    rejected with the message [Claude CLI exited with code null], which
    does not name the signal. *)
Theorem close_by_signal_reports_null_code :
  let o := mkOptions None None (Some (lit "/tmp/p")) None true None None in
  let s := queryClaude 1700000000000 (Some (lit "hi")) o initial in
  let s' := at_handle 0 (fun st => on_close st None (Some (lit "SIGTERM"))) s in
  activeClaudeProcesses s = [(lit "1700000000000", 0)] /\
  (outcome <$> invocations s' !! 0)
    = Some (Some (Rejected (lit "Claude CLI exited with code null"))) /\
  includes (lit "SIGTERM") (lit "Claude CLI exited with code null") = false /\
  includes (lit "code null") (lit "Claude CLI exited with code null") = true.
Proof. repeat split; vm_compute; reflexivity. Qed.

End ExitHandling.

(** ** The process runner: the session-created announcement *)

Section SessionCreated.
Import ClaudeCli.

Lemma created_app ms ms' :
  List.filter is_session_created (ms ++ ms')
    = List.filter is_session_created ms ++ List.filter is_session_created ms'.
Proof. apply List.filter_app. Qed.

Lemma truthy_or_else_l a b : truthy a = true -> or_else a b = a.
Proof. unfold or_else. by intros ->. Qed.

Lemma truthy_or_else_r a b : truthy a = false -> or_else a b = b.
Proof. unfold or_else. by intros ->. Qed.

(** One line of stdout: the closure invariant is kept, an id is captured
    exactly by an [init] record with an id while none is captured, and
    exactly then a [session-created] message is sent. *)
Lemma stdout_line_created h reg i line :
  closure_ok i ->
  let i' := (stdout_line h (reg, i) line).2 in
  closure_ok i' /\
  options i' = options i /\ status i' = status i /\ outcome i' = outcome i /\
  truthy (capturedSessionId i') = truthy (capturedSessionId i) || is_init_with_id line /\
  List.filter is_session_created (sent i')
    = List.filter is_session_created (sent i) ++
      (if truthy (capturedSessionId i) then [] else announced_by line).
Proof.
  intros [Hcap Hout]. unfold stdout_line, announced_by, is_init_with_id.
  assert (forall ms, ms ++ (if truthy (capturedSessionId i) then [] else [])
                     = ms ++ @nil WsMessage) as Hnil.
  { intros ms. by destruct (truthy (capturedSessionId i)). }
  destruct line as [raw|r]; simpl.
  { rewrite created_app, orb_false_r, Hnil.
    repeat split; simpl; intros; try done; by apply Hcap || apply Hout. }
  destruct (bool_decide (rtype r = Some (lit "system"))) eqn:Hty; simpl.
  2:{ rewrite created_app, orb_false_r, Hnil.
      repeat split; simpl; intros; try done; by apply Hcap || apply Hout. }
  destruct (bool_decide (subtype r = Some (lit "init"))) eqn:Hsub; simpl.
  2:{ rewrite orb_false_r, Hnil, app_nil_r.
      repeat split; simpl; intros; try done; by apply Hcap || apply Hout. }
  destruct (truthy (session_id r)) eqn:Hid; simpl.
  2:{ rewrite orb_false_r, Hnil, app_nil_r.
      repeat split; simpl; intros; try done; by apply Hcap || apply Hout. }
  destruct (truthy (capturedSessionId i)) eqn:Hc; simpl.
  { rewrite app_nil_r.
    repeat split; simpl; intros; try done; try congruence; by apply Hout. }
  destruct (Hcap eq_refl) as [Hsid Hsent]. rewrite Hsid, Hsent. simpl.
  rewrite created_app. simpl.
  repeat split; simpl; intros; simpl in *; try done; try congruence; by apply Hout.
Qed.

Lemma find_app_init (l1 l2 : list StdoutLine) :
  List.find is_init_with_id (l1 ++ l2)
    = match List.find is_init_with_id l1 with
      | Some x => Some x
      | None => List.find is_init_with_id l2
      end.
Proof.
  induction l1 as [|x l1 IH]; simpl; [done|].
  by destruct (is_init_with_id x).
Qed.

Lemma find_none_existsb (l : list StdoutLine) :
  existsb is_init_with_id l = match List.find is_init_with_id l with
                              | Some _ => true | None => false end.
Proof.
  induction l as [|x l IH]; simpl; [done|].
  by destruct (is_init_with_id x).
Qed.

(** A chunk of stdout. *)
Lemma stdout_data_created h lines reg i :
  closure_ok i ->
  let i' := (stdout_data h (reg, i) lines).2 in
  closure_ok i' /\
  options i' = options i /\ status i' = status i /\ outcome i' = outcome i /\
  truthy (capturedSessionId i')
    = truthy (capturedSessionId i) || existsb is_init_with_id lines /\
  List.filter is_session_created (sent i')
    = List.filter is_session_created (sent i) ++
      (if truthy (capturedSessionId i) then [] else first_announcement lines).
Proof.
  unfold stdout_data. revert reg i.
  induction lines as [|line lines IH]; intros reg i Hok; cbn [foldl].
  - simpl. rewrite orb_false_r. unfold first_announcement. simpl.
    split; [exact Hok|]. repeat split; try done.
    destruct (truthy (capturedSessionId i)); by rewrite app_nil_r.
  - pose proof (stdout_line_created h reg i line Hok) as Hline.
    destruct (stdout_line h (reg, i) line) as [reg1 i1] eqn:Hstep.
    simpl in Hline. destruct Hline as (Hok1 & Ho1 & Hs1 & Hout1 & Hc1 & Hm1).
    destruct (IH reg1 i1 Hok1) as (Hok2 & Ho2 & Hs2 & Hout2 & Hc2 & Hm2).
    split; [exact Hok2|]. repeat split; try congruence.
    + rewrite Hc2, Hc1. simpl. by rewrite orb_assoc.
    + rewrite Hm2, Hm1, Hc1, <- app_assoc. f_equal.
      unfold first_announcement. simpl.
      destruct (truthy (capturedSessionId i)); simpl; [done|].
      destruct (is_init_with_id line) eqn:Hline; simpl; [by rewrite app_nil_r|].
      destruct line as [raw|r]; simpl in *; [done|]. by rewrite Hline.
Qed.

Lemma spawn_closure_ok now cmd o : closure_ok (spawn_invocation now cmd o).
Proof. split; simpl; [|done]. intros ->. done. Qed.

Lemma closure_ok_transfer i i' :
  closure_ok i ->
  options i' = options i ->
  capturedSessionId i' = capturedSessionId i ->
  sessionCreatedSent i' = sessionCreatedSent i ->
  (status i' = Alive -> outcome i' = None) ->
  closure_ok i'.
Proof.
  intros [Hcap Hout] Ho Hc Hs Hst. split; [|done].
  rewrite Ho, Hc, Hs. exact Hcap.
Qed.

Lemma on_close_fields reg i code signal :
  let i' := (on_close (reg, i) code signal).2 in
  options i' = options i /\
  capturedSessionId i' = capturedSessionId i /\
  sessionCreatedSent i' = sessionCreatedSent i /\
  status i' = Closed /\
  sent i' = sent i ++ [ClaudeComplete (finalSessionId i) code
                         (negb (truthy (sessionId (options i))) && truthy (command i))].
Proof.
  unfold on_close, close_finish, settle. simpl.
  destruct (bool_decide (code = Some 0%Z)), (outcome i); simpl; done.
Qed.

Lemma on_error_fields reg i message :
  let i' := (on_error (reg, i) message).2 in
  options i' = options i /\
  capturedSessionId i' = capturedSessionId i /\
  sessionCreatedSent i' = sessionCreatedSent i /\
  status i' = Failed /\
  sent i' = sent i ++ [ClaudeError message].
Proof. unfold on_error, settle. simpl. destruct (outcome i); simpl; done. Qed.

(** Any event of the process: only stdout can capture an id and announce
    the session. *)
Lemma handle_event_created h ev reg i :
  closure_ok i ->
  let i' := (handle_event h (reg, i) ev).2 in
  closure_ok i' /\
  options i' = options i /\
  truthy (capturedSessionId i')
    = truthy (capturedSessionId i) || existsb is_init_with_id (lines_of ev) /\
  List.filter is_session_created (sent i')
    = List.filter is_session_created (sent i) ++
      (if truthy (capturedSessionId i) then [] else first_announcement (lines_of ev)).
Proof.
  intros Hok.
  assert (forall ms, ms ++ (if truthy (capturedSessionId i) then []
                            else first_announcement [])
                     = ms) as Hnil.
  { intros ms. unfold first_announcement. simpl.
    destruct (truthy (capturedSessionId i)); by rewrite app_nil_r. }
  destruct ev as [lines|text|code signal|message]; cbn [handle_event lines_of].
  - destruct (stdout_data_created h lines reg i Hok) as (H1 & H2 & _ & _ & H3 & H4).
    done.
  - simpl. rewrite created_app, orb_false_r, Hnil. simpl. rewrite app_nil_r.
    split; [|done]. apply (closure_ok_transfer i); try done. apply Hok.
  - destruct (on_close_fields reg i code signal) as (Ho & Hc & Hs & Hst & Hm).
    remember (on_close (reg, i) code signal).2 as i' eqn:Hi'. clear Hi'.
    simpl existsb. rewrite orb_false_r, Hnil, Hm, Hc, created_app. simpl.
    rewrite app_nil_r. split; [|done].
    apply (closure_ok_transfer i); try done. by rewrite Hst.
  - destruct (on_error_fields reg i message) as (Ho & Hc & Hs & Hst & Hm).
    remember (on_error (reg, i) message).2 as i' eqn:Hi'. clear Hi'.
    simpl existsb. rewrite orb_false_r, Hnil, Hm, Hc, created_app. simpl.
    rewrite app_nil_r. split; [|done].
    apply (closure_ok_transfer i); try done. by rewrite Hst.
Qed.

Lemma stdout_lines_cons ev evs :
  stdout_lines (ev :: evs) = lines_of ev ++ stdout_lines evs.
Proof. unfold stdout_lines. by destruct ev. Qed.

(** A whole run of events. *)
Lemma events_created h evs reg i :
  closure_ok i ->
  let i' := (foldl (handle_event h) (reg, i) evs).2 in
  options i' = options i /\
  List.filter is_session_created (sent i')
    = List.filter is_session_created (sent i) ++
      (if truthy (capturedSessionId i) then []
       else first_announcement (stdout_lines evs)).
Proof.
  revert reg i. induction evs as [|ev evs IH]; intros reg i Hok; cbn [foldl].
  - simpl. split; [done|]. unfold first_announcement, stdout_lines. simpl.
    destruct (truthy (capturedSessionId i)); by rewrite app_nil_r.
  - pose proof (handle_event_created h ev reg i Hok) as Hev.
    destruct (handle_event h (reg, i) ev) as [reg1 i1] eqn:Hstep.
    simpl in Hev. destruct Hev as (Hok1 & Ho1 & Hc1 & Hm1).
    destruct (IH reg1 i1 Hok1) as (Ho2 & Hm2).
    split; [congruence|].
    rewrite Hm2, Hm1, Hc1, <- app_assoc. f_equal.
    rewrite stdout_lines_cons. unfold first_announcement.
    rewrite find_app_init, find_none_existsb.
    destruct (truthy (capturedSessionId i)); simpl; [done|].
    destruct (List.find is_init_with_id (lines_of ev)); simpl;
      by rewrite ?app_nil_r.
Qed.

Lemma first_announcement_length lines :
  length (first_announcement lines)
    = if existsb is_init_with_id lines then 1 else 0.
Proof.
  unfold first_announcement. induction lines as [|line lines IH]; simpl; [done|].
  destruct (is_init_with_id line) eqn:Hline; simpl; [|done].
  unfold announced_by. destruct line; [done|]. by rewrite Hline.
Qed.

(** C8: take any invocation of [queryClaude] and any events of its
    process, in any order and number.  If the caller supplied a session
    id, the second argument of the command line is [--resume=<id>] and no
    [session-created] message is ever sent.  If it supplied none, the
    [session-created] messages sent are exactly the one for the first
    [init] record that carries a session id (with that id): one if such a
    record arrives, and never a second. *)
Theorem session_created_once (now : Z) (cmd : option jsstring) (o : Options)
    (h : nat) (reg : Registry) (evs : list ProcEvent) :
  let i := spawn_invocation now cmd o in
  let i' := (foldl (handle_event h) (reg, i) evs).2 in
  if truthy (sessionId o)
  then args i !! 1 = Some (lit "--resume=" ++ text_of (sessionId o)) /\
       count_created (sent i') = 0
  else List.filter is_session_created (sent i')
         = first_announcement (stdout_lines evs) /\
       count_created (sent i')
         = if existsb is_init_with_id (stdout_lines evs) then 1 else 0.
Proof.
  intros i i'.
  destruct (events_created h evs reg i (spawn_closure_ok now cmd o)) as [_ Hm].
  fold i' in Hm.
  change (capturedSessionId i) with (sessionId o) in Hm.
  change (List.filter is_session_created (sent i)) with (@nil WsMessage) in Hm.
  unfold count_created. rewrite Hm.
  destruct (truthy (sessionId o)) eqn:Hsid.
  - split; [|reflexivity].
    unfold i, spawn_invocation, build_args. cbn [args]. rewrite Hsid. reflexivity.
  - split; [reflexivity|]. apply first_announcement_length.
Qed.

(** A fresh session whose engine announces itself twice, then a resumed
    one. *)
Example session_created_runs :
  let init id := Parsed (mkResponse (Some (lit "system")) (Some (lit "init"))
                           (Some (lit id))) in
  let fresh := mkOptions None None None None true None None in
  let resumed := mkOptions (Some (lit "abc")) None None None true None None in
  let evs := [Stdout [init "abc"; NonJson (lit "x")]; Stderr (lit "warn");
              Stdout [init "def"]; Close (Some 0%Z) None] in
  List.filter is_session_created
    (sent (foldl (handle_event 0) ([], spawn_invocation 7 (Some (lit "hi")) fresh) evs).2)
    = [SessionCreated (Some (lit "abc"))] /\
  List.filter is_session_created
    (sent (foldl (handle_event 0) ([], spawn_invocation 7 (Some (lit "hi")) resumed) evs).2)
    = [] /\
  args (spawn_invocation 7 (Some (lit "hi")) resumed)
    = [lit "-p"; lit "--resume=abc"; lit "--output-format"; lit "stream-json";
       lit "--verbose"; lit "--dangerously-skip-permissions"; lit "hi"].
Proof. repeat split; vm_compute; reflexivity. Qed.

End SessionCreated.

(** ** The session registry *)

Section JsMapFacts.
Import ClaudeCli.
Context {V : Type}.
Implicit Types (m : JsMap V) (k : jsstring) (v : V) (e : jsstring * V).

Lemma map_keys_elem k m : k ∈ map_keys m <-> exists v, (k, v) ∈ m.
Proof.
  unfold map_keys. rewrite list_elem_of_fmap. split.
  - intros [[k' v] [-> He]]. by exists v.
  - intros [v He]. by exists (k, v).
Qed.

Lemma map_delete_elem k m e :
  e ∈ map_delete k m <-> e ∈ m /\ e.1 <> k.
Proof.
  induction m as [|[k' v'] m IH]; simpl.
  - rewrite elem_of_nil. tauto.
  - case_bool_decide as Hk.
    + rewrite IH, elem_of_cons. split; [tauto|].
      intros [[->|He] Hne]; [done | done].
    + rewrite !elem_of_cons, IH. split; [|tauto].
      intros [->|[He Hne]]; [split; [by left | done] | split; [by right | done]].
Qed.

Lemma map_delete_keys k k' m :
  k' ∈ map_keys (map_delete k m) <-> k' ∈ map_keys m /\ k' <> k.
Proof.
  rewrite !map_keys_elem. split.
  - intros [v He]. apply map_delete_elem in He as [He Hne]. eauto.
  - intros [[v He] Hne]. exists v. by apply map_delete_elem.
Qed.

Lemma map_delete_NoDup k m :
  NoDup (map_keys m) -> NoDup (map_keys (map_delete k m)).
Proof.
  induction m as [|[k' v'] m IH]; simpl; [done|].
  rewrite NoDup_cons. intros [Hnotin Hnd].
  case_bool_decide; [by apply IH|].
  simpl. rewrite NoDup_cons. split; [|by apply IH].
  rewrite map_delete_keys. tauto.
Qed.

Lemma map_set_keys k k' v m :
  k' ∈ map_keys (map_set k v m) <-> k' = k \/ k' ∈ map_keys m.
Proof.
  induction m as [|[k0 v0] m IH]; simpl.
  - rewrite list_elem_of_singleton, elem_of_nil. tauto.
  - case_bool_decide as Hk; simpl; rewrite !elem_of_cons.
    + subst k0. tauto.
    + fold (map_keys (map_set k v m)) (map_keys m). rewrite IH. tauto.
Qed.

Lemma map_set_NoDup k v m :
  NoDup (map_keys m) -> NoDup (map_keys (map_set k v m)).
Proof.
  induction m as [|[k0 v0] m IH]; simpl.
  - intros _. apply NoDup_singleton.
  - rewrite NoDup_cons. intros [Hnotin Hnd].
    case_bool_decide as Hk; simpl; rewrite NoDup_cons.
    + subst k0. done.
    + split; [|by apply IH].
      fold (map_keys (map_set k v m)). rewrite map_set_keys. tauto.
Qed.

(** After [set], the entries are the new one and the old ones under
    other keys. *)
Lemma map_set_elem k v m e :
  NoDup (map_keys m) ->
  e ∈ map_set k v m -> e = (k, v) \/ (e ∈ m /\ e.1 <> k).
Proof.
  induction m as [|[k0 v0] m IH]; simpl.
  - rewrite list_elem_of_singleton. by left.
  - rewrite NoDup_cons. intros [Hnotin Hnd].
    case_bool_decide as Hk; rewrite !elem_of_cons.
    + subst k0. intros [->|He]; [by left|]. right. split; [by right|].
      intros <-. apply Hnotin, map_keys_elem. exists e.2. by destruct e.
    + intros [->|He]; [right; split; [by left | done]|].
      destruct (IH Hnd He) as [->|[He' Hne]]; [by left|].
      right. split; [by right | done].
Qed.

Lemma map_get_None k m : map_get k m = None <-> k ∉ map_keys m.
Proof.
  induction m as [|[k0 v0] m IH]; simpl.
  - rewrite elem_of_nil. tauto.
  - rewrite elem_of_cons. fold (map_keys m).
    case_bool_decide as Hk; [subst; split; [done | tauto]|].
    rewrite IH. split; [intros H [Heq|Hin]; [by subst | done] | tauto].
Qed.

Lemma map_get_Some k v m : map_get k m = Some v -> (k, v) ∈ m.
Proof.
  induction m as [|[k0 v0] m IH]; simpl; [done|].
  case_bool_decide as Hk.
  - intros [= ->]. subst. by left.
  - intros H. right. by apply IH.
Qed.

(** [has] answers [false] right after [delete]. *)
Lemma map_has_delete k m : map_has k (map_delete k m) = false.
Proof.
  unfold map_has.
  destruct (map_get k (map_delete k m)) as [v|] eqn:Hget; [|done].
  apply map_get_Some, map_delete_elem in Hget as [_ Hne]. done.
Qed.

Lemma filter_key_absent k m :
  k ∉ map_keys m -> List.filter (fun e => bool_decide (e.1 = k)) m = [].
Proof.
  induction m as [|[k0 v0] m IH]; [done|].
  cbn [map_keys fmap list_fmap]. rewrite not_elem_of_cons. intros [Hne Hnotin].
  simpl. rewrite bool_decide_eq_false_2 by (simpl in Hne; congruence). by apply IH.
Qed.

(** Without duplicate keys, a key holds at most one value. *)
Lemma handles_under_NoDup k m :
  NoDup (map_keys m) -> length (handles_under k m) <= 1.
Proof.
  unfold handles_under. rewrite length_fmap.
  induction m as [|[k0 v0] m IH]; [simpl; lia|].
  cbn [map_keys fmap list_fmap]. rewrite NoDup_cons. intros [Hnotin Hnd].
  simpl. case_bool_decide as Hk; [|by apply IH].
  subst k0. rewrite filter_key_absent by done. simpl. lia.
Qed.

Lemma map_get_set k k' v m :
  map_get k' (map_set k v m) = if bool_decide (k' = k) then Some v else map_get k' m.
Proof.
  induction m as [|[k0 v0] m IH]; simpl.
  - rewrite (bool_decide_ext (k = k') (k' = k)) by done. by case_bool_decide.
  - destruct (bool_decide_reflect (k0 = k)) as [->|Hne]; simpl.
    + rewrite (bool_decide_ext (k = k') (k' = k)) by done. by case_bool_decide.
    + rewrite IH. repeat case_bool_decide; congruence.
Qed.

Lemma map_get_delete k k' m :
  map_get k' (map_delete k m) = if bool_decide (k' = k) then None else map_get k' m.
Proof.
  induction m as [|[k0 v0] m IH]; simpl.
  - by case_bool_decide.
  - destruct (bool_decide_reflect (k0 = k)) as [->|Hne]; simpl.
    + rewrite IH. repeat case_bool_decide; congruence.
    + rewrite IH. repeat case_bool_decide; congruence.
Qed.

Lemma map_get_elem k v m :
  NoDup (map_keys m) -> (k, v) ∈ m -> map_get k m = Some v.
Proof.
  induction m as [|[k0 v0] m IH]; simpl.
  - intros _ Hin. by apply elem_of_nil in Hin.
  - rewrite NoDup_cons, elem_of_cons. intros [Hnotin Hnd] [Heq|Hin].
    + simplify_eq. by rewrite bool_decide_eq_true_2.
    + case_bool_decide as Hk; [|by apply IH].
      subst k0. exfalso. apply Hnotin, map_keys_elem. by exists v.
Qed.

End JsMapFacts.

Section RegistryInvariant.
Import ClaudeCli.

Lemma current_key_uncaptured i :
  closure_ok i -> truthy (capturedSessionId i) = false ->
  current_key i = processKey i.
Proof.
  intros [Hcap _] Hc. destruct (Hcap Hc) as [Hsid _].
  unfold current_key, finalSessionId, or_else. by rewrite Hc, Hsid.
Qed.

Lemma current_key_captured i :
  truthy (capturedSessionId i) = true ->
  current_key i = text_of (capturedSessionId i).
Proof. intros Hc. unfold current_key, finalSessionId, or_else. by rewrite Hc. Qed.

Lemma spawn_current_key now cmd o :
  current_key (spawn_invocation now cmd o) = processKey (spawn_invocation now cmd o).
Proof.
  unfold current_key, finalSessionId, spawn_invocation, or_else. simpl.
  by destruct (truthy (sessionId o)).
Qed.

Lemma handler_post_pre h reg reg' i' :
  handler_post h reg reg' i' -> handler_pre h reg' i'.
Proof.
  intros (Hnd & Hok & Hent). split; [done|]. split; [done|].
  intros e He Heq. destruct (Hent e He) as [[Hne _]|(_ & Hst & Hkey)]; done.
Qed.

Lemma handler_post_trans h reg reg1 reg2 i2 :
  (forall e, e ∈ reg1 -> e.2 <> h -> e ∈ reg) ->
  handler_post h reg1 reg2 i2 -> handler_post h reg reg2 i2.
Proof.
  intros Hsub (Hnd & Hok & Hent). split; [done|]. split; [done|].
  intros e He. destruct (Hent e He) as [[Hne Hin]|Hh]; [left|by right].
  split; [done|]. by apply Hsub.
Qed.

(** A handler that leaves the registry, the key and the status alone. *)
Lemma handler_post_same h reg i i' :
  handler_pre h reg i -> closure_ok i' ->
  status i' = status i -> current_key i' = current_key i ->
  handler_post h reg reg i'.
Proof.
  intros (Hnd & Hok & Hent) Hok' Hst Hkey. split; [done|]. split; [done|].
  intros e He. destruct (decide (e.2 = h)) as [Heq|Hne]; [right|by left].
  destruct (Hent e He Heq) as [Ha Hk]. rewrite Hst, Hkey. done.
Qed.

(** A handler that deletes the current key and ends the process. *)
Lemma handler_post_delete h reg i i' :
  handler_pre h reg i -> closure_ok i' ->
  handler_post h reg (map_delete (current_key i) reg) i'.
Proof.
  intros (Hnd & Hok & Hent) Hok'.
  split; [by apply map_delete_NoDup|]. split; [done|].
  intros e He. apply map_delete_elem in He as [He Hne]. left. split; [|done].
  intros Heq. destruct (Hent e He Heq) as [_ Hk]. done.
Qed.

Lemma stdout_line_ok h reg i line :
  status i = Alive -> handler_pre h reg i ->
  handler_post h reg (stdout_line h (reg, i) line).1 (stdout_line h (reg, i) line).2 /\
  status (stdout_line h (reg, i) line).2 = Alive.
Proof.
  intros Halive Hpre.
  pose proof Hpre as (Hnd & Hok & Hent).
  destruct (stdout_line_created h reg i line Hok) as (Hok' & _ & Hst & _ & _ & _).
  split; [|by rewrite Hst]. clear Hst.
  unfold stdout_line in *. destruct line as [raw|r].
  { by apply (handler_post_same h reg i). }
  destruct (bool_decide (rtype r = Some (lit "system")));
    [|by apply (handler_post_same h reg i)].
  destruct (bool_decide (subtype r = Some (lit "init")));
    [|by apply (handler_post_same h reg i)].
  destruct (truthy (session_id r)) eqn:Hid; simpl in *;
    [|by apply (handler_post_same h reg i)].
  destruct (truthy (capturedSessionId i)) eqn:Hcap; simpl in *;
    [by apply (handler_post_same h reg i)|].
  pose proof (current_key_uncaptured i Hok Hcap) as Hkey.
  destruct Hok as [Hcl _]. destruct (Hcl Hcap) as [Hsid Hsent].
  rewrite Hsid, Hsent in *. simpl in *.
  assert (current_key (ws_send (SessionCreated (session_id r))
            (with_createdSent true (with_captured (session_id r) i)))
          = text_of (session_id r)) as Hkey'.
  { by rewrite current_key_captured. }
  case_bool_decide as Hpk; simpl.
  - split; [done|]. split; [done|].
    intros e He. destruct (decide (e.2 = h)) as [Heq|Hne]; [right|by left].
    destruct (Hent e He Heq) as [_ Hk]. rewrite Hkey'. split; [done|]. split; [done|].
    congruence.
  - split; [by apply map_set_NoDup, map_delete_NoDup|]. split; [done|].
    intros e He.
    apply map_set_elem in He as [->|[He Hne]]; [| |by apply map_delete_NoDup].
    + right. by rewrite Hkey'.
    + apply map_delete_elem in He as [He Hne']. left. split; [|done].
      intros Heq. destruct (Hent e He Heq) as [_ Hk]. congruence.
Qed.

Lemma stdout_data_ok h lines reg i :
  status i = Alive -> handler_pre h reg i ->
  handler_post h reg (stdout_data h (reg, i) lines).1 (stdout_data h (reg, i) lines).2.
Proof.
  unfold stdout_data.
  assert (forall reg0 reg i, status i = Alive -> handler_pre h reg i ->
            (forall e, e ∈ reg -> e.2 <> h -> e ∈ reg0) ->
            handler_post h reg0 (foldl (stdout_line h) (reg, i) lines).1
              (foldl (stdout_line h) (reg, i) lines).2) as Hgen.
  { induction lines as [|line lines IH]; intros reg0 reg1 i1 Halive Hpre Hsub;
      cbn [foldl].
    - simpl. apply (handler_post_trans h reg0 reg1); [done|].
      apply (handler_post_same h reg1 i1); [done | apply Hpre | done | done].
    - destruct (stdout_line_ok h reg1 i1 line Halive Hpre) as [Hpost Halive'].
      destruct (stdout_line h (reg1, i1) line) as [reg2 i2]. simpl in *.
      apply IH; [done | by eapply handler_post_pre |].
      intros e He Hne. destruct Hpost as (_ & _ & Hent).
      destruct (Hent e He) as [[_ Hin]|[Heq _]]; [by apply Hsub | done]. }
  intros Halive Hpre. by apply Hgen.
Qed.


(** Running a handler that meets its contract keeps the registry sound. *)
Lemma at_handle_ok h f s i :
  registry_ok s -> invocations s !! h = Some i ->
  (handler_pre h (activeClaudeProcesses s) i ->
   handler_post h (activeClaudeProcesses s)
     (f (activeClaudeProcesses s, i)).1 (f (activeClaudeProcesses s, i)).2) ->
  registry_ok (at_handle h f s).
Proof.
  intros (Hnd & Hent & Hcl) Hi Hf.
  rewrite Forall_forall in Hent. rewrite Forall_forall in Hcl.
  assert (handler_pre h (activeClaudeProcesses s) i) as Hpre.
  { split; [done|]. split; [by eapply Hcl, list_elem_of_lookup_2|].
    intros e He Heq. destruct (Hent e He) as (i0 & Hi0 & Hst & Hkey).
    rewrite Heq, Hi in Hi0. by simplify_eq. }
  destruct (Hf Hpre) as (Hnd' & Hok' & Hent').
  unfold at_handle. rewrite Hi.
  destruct (f (activeClaudeProcesses s, i)) as [reg' i']. simpl in *.
  split; [done|]. split.
  - apply Forall_forall. intros e He. unfold entry_ok. simpl.
    destruct (Hent' e He) as [[Hne Hin]|(Heq & Hst & Hkey)].
    + destruct (Hent e Hin) as (i0 & Hi0 & Hst & Hkey).
      exists i0. by rewrite list_lookup_insert_ne.
    + exists i'. rewrite Heq.
      rewrite list_lookup_insert_eq by by eapply lookup_lt_Some. done.
  - simpl. apply Forall_forall. intros i0 Hi0.
    apply list_elem_of_lookup in Hi0 as [n Hn].
    destruct (decide (n = h)) as [->|Hne].
    + rewrite list_lookup_insert_eq in Hn by by eapply lookup_lt_Some.
      by simplify_eq.
    + rewrite list_lookup_insert_ne in Hn by done.
      by eapply Hcl, list_elem_of_lookup_2.
Qed.

Lemma queryClaude_ok now cmd o s :
  registry_ok s -> registry_ok (queryClaude now cmd o s).
Proof.
  intros (Hnd & Hent & Hcl).
  rewrite Forall_forall in Hent.
  unfold queryClaude. split; [by apply map_set_NoDup|]. split; simpl.
  - apply Forall_forall. intros e He. unfold entry_ok. simpl.
    apply map_set_elem in He as [->|[He Hne]]; [|by destruct (Hent e He) as (i0 & Hi0 & ?);
        exists i0; rewrite lookup_app_l by by eapply lookup_lt_Some|done].
    exists (spawn_invocation now cmd o). simpl.
    rewrite list_lookup_middle by done.
    split; [done|]. split; [done|]. apply spawn_current_key.
  - apply Forall_app. split; [done|].
    apply Forall_singleton, spawn_closure_ok.
Qed.

Lemma abortClaudeSession_ok key s :
  registry_ok s -> registry_ok (abortClaudeSession key s).1.
Proof.
  intros (Hnd & Hent & Hcl). unfold abortClaudeSession.
  destruct (map_get key (activeClaudeProcesses s)); [|done]. simpl.
  split; [by apply map_delete_NoDup|]. split; [|done]. simpl.
  rewrite Forall_forall in Hent. apply Forall_forall. intros e He.
  apply map_delete_elem in He as [He _]. by apply Hent.
Qed.

Lemma step_ok s s' : step s s' -> registry_ok s -> registry_ok s'.
Proof.
  intros Hstep Hok. destruct Hstep as
    [now cmd o s | h i lines s Hi Hst | h i text s Hi Hst
    | h i code signal s Hi Hst | h i s Hi Hst | h i message s Hi Hst | key s].
  - by apply queryClaude_ok.
  - apply (at_handle_ok h _ s i); [done | done |]. by apply stdout_data_ok.
  - apply (at_handle_ok h _ s i); [done | done |]. intros Hpre. simpl.
    apply (handler_post_same h _ i); [done | | done | done].
    destruct Hpre as (_ & [Hcap Hout] & _). by split.
  - apply (at_handle_ok h _ s i); [done | done |]. intros Hpre. simpl.
    apply (handler_post_delete h _ i); [done|].
    destruct Hpre as (_ & [Hcap Hout] & _). by split.
  - apply (at_handle_ok h _ s i); [done | done |]. intros Hpre. simpl.
    pose proof Hpre as (Hnd & [Hcap Hout] & Hent).
    split; [done|]. split.
    + unfold close_finish. destruct (pendingClose i) as [[final code]|]; [|done].
      unfold settle. simpl.
      destruct (bool_decide (code = Some 0%Z)), (outcome i); by split.
    + intros e He. left. split; [|done]. intros Heq.
      destruct (Hent e He Heq) as [Ha _]. congruence.
  - apply (at_handle_ok h _ s i); [done | done |]. intros Hpre. simpl.
    apply (handler_post_delete h _ i); [done|].
    destruct Hpre as (_ & [Hcap Hout] & _).
    unfold settle. simpl. destruct (outcome i); by split.
  - by apply abortClaudeSession_ok.
Qed.

Lemma initial_ok : registry_ok initial.
Proof. split; [apply NoDup_nil_2|]. by split; apply Forall_nil. Qed.

Lemma reachable_ok s : reachable s -> registry_ok s.
Proof.
  intros Hreach.
  apply (rtc_ind_r (R := step) (fun s => registry_ok s) initial);
    [apply initial_ok | | exact Hreach].
  intros s1 s2 _ Hstep IH. by eapply step_ok.
Qed.

(** The first init record with a session id, for an invocation that has
    captured none: the entry of the process moves from the provisional
    key to the session id within the one run of the handler. *)
Lemma stdout_line_rekey h reg i r :
  is_init_with_id (Parsed r) = true ->
  truthy (capturedSessionId i) = false ->
  processKey i <> text_of (session_id r) ->
  map_get (text_of (session_id r)) (stdout_line h (reg, i) (Parsed r)).1 = Some h /\
  map_get (processKey i) (stdout_line h (reg, i) (Parsed r)).1 = None.
Proof.
  unfold is_init_with_id. rewrite !andb_true_iff, !bool_decide_eq_true.
  intros [[Hty Hsub] Hid] Hcap Hne. unfold stdout_line.
  rewrite !bool_decide_eq_true_2 by done. rewrite Hid, Hcap. simpl.
  rewrite bool_decide_eq_false_2 by done.
  destruct (negb (truthy (sessionId (options i))) && negb (sessionCreatedSent i));
    simpl; rewrite !map_get_set, !map_get_delete;
    rewrite (bool_decide_eq_true_2 (text_of (session_id r) = text_of (session_id r)))
      by done;
    rewrite (bool_decide_eq_false_2 _ Hne);
    by rewrite (bool_decide_eq_true_2 (processKey i = processKey i)).
Qed.

(** Once the [close] handler or the [error] handler of a process has run
    its synchronous part, the registry holds the process under no key. *)
Lemma unregistered_after h i f s k :
  registry_ok s -> invocations s !! h = Some i ->
  (forall reg : Registry, (f (reg, i)).1 = map_delete (current_key i) reg) ->
  (k, h) ∉ activeClaudeProcesses (at_handle h f s).
Proof.
  intros (_ & Hent & _) Hi Hf Hin. rewrite Forall_forall in Hent.
  unfold at_handle in Hin. rewrite Hi in Hin.
  pose proof (Hf (activeClaudeProcesses s)) as Hreg. revert Hin Hreg.
  destruct (f (activeClaudeProcesses s, i)) as [reg' i']. simpl.
  intros Hin ->.
  apply map_delete_elem in Hin as [Hin Hne].
  destruct (Hent _ Hin) as (i0 & Hi0 & _ & Hkey). simpl in *.
  rewrite Hi in Hi0. by simplify_eq.
Qed.

(** C4: in every reachable state of the registry a session key holds at
    most one process handle, and the handle it holds is a running
    process whose handlers use that key.  The operations keep it so:
    the spawn registers the new process under its key, replacing what
    was there; the first init record of a process that has captured no
    id leaves the process under the revealed session id and the
    provisional key inactive, within one run of the stdout handler; the
    [close] and [error] handlers leave the process under no key; and
    after [abortClaudeSession] the key is inactive. *)
Theorem registry_one_handle_per_key (s : System) (key : jsstring) :
  reachable s ->
  NoDup (getActiveClaudeSessions s) /\
  length (handles_under key (activeClaudeProcesses s)) <= 1 /\
  (forall h, (key, h) ∈ activeClaudeProcesses s ->
     map_get key (activeClaudeProcesses s) = Some h /\
     exists i, invocations s !! h = Some i /\ status i = Alive /\ current_key i = key) /\
  (forall now cmd o,
     map_get (processKey (spawn_invocation now cmd o))
       (activeClaudeProcesses (queryClaude now cmd o s))
     = Some (length (invocations s))) /\
  (forall h i r,
     invocations s !! h = Some i ->
     is_init_with_id (Parsed r) = true ->
     truthy (capturedSessionId i) = false ->
     processKey i <> text_of (session_id r) ->
     let s' := at_handle h (fun st => stdout_data h st [Parsed r]) s in
     map_get (text_of (session_id r)) (activeClaudeProcesses s') = Some h /\
     isClaudeSessionActive (processKey i) s' = false) /\
  (forall h i code signal k,
     invocations s !! h = Some i ->
     (k, h) ∉ activeClaudeProcesses (at_handle h (fun st => close_begin st code signal) s)) /\
  (forall h i message k,
     invocations s !! h = Some i ->
     (k, h) ∉ activeClaudeProcesses (at_handle h (fun st => on_error st message) s)) /\
  isClaudeSessionActive key (abortClaudeSession key s).1 = false.
Proof.
  intros Hreach. pose proof (reachable_ok s Hreach) as Hok.
  destruct Hok as (Hnd & Hent & Hcl).
  split; [done|]. split; [by apply handles_under_NoDup|].
  split; [|split; [|split; [|split; [|split]]]].
  - intros h Hin. split; [by apply map_get_elem|].
    rewrite Forall_forall in Hent. by destruct (Hent _ Hin) as (i & ? & ? & ?); exists i.
  - intros now cmd o. unfold queryClaude. simpl.
    rewrite map_get_set. by rewrite bool_decide_eq_true_2.
  - intros h i r Hi Hinit Hcap Hne s'. unfold s', isClaudeSessionActive, map_has, at_handle.
    rewrite Hi. unfold stdout_data. cbn [foldl].
    destruct (stdout_line_rekey h (activeClaudeProcesses s) i r Hinit Hcap Hne)
      as [Hnew Hold].
    destruct (stdout_line h (activeClaudeProcesses s, i) (Parsed r)) as [reg' i'].
    simpl in *. by rewrite Hnew, Hold.
  - intros h i code signal k Hi.
    by apply (unregistered_after h i _ s k (conj Hnd (conj Hent Hcl)) Hi).
  - intros h i message k Hi.
    by apply (unregistered_after h i _ s k (conj Hnd (conj Hent Hcl)) Hi).
  - unfold abortClaudeSession, isClaudeSessionActive.
    destruct (map_get key (activeClaudeProcesses s)) as [h|] eqn:Hget; simpl.
    + apply map_has_delete.
    + unfold map_has. by rewrite Hget.
Qed.

(** C9: in every reachable state, an invocation whose promise has settled
    (through the [close] or the [error] handler) has no entry in the
    registry, under any key; every entry belongs to a process that is
    still running and sits under the key its handlers use.  So
    [isClaudeSessionActive] never answers [true] for a process that has
    completed or failed. *)
Theorem settled_invocation_unregistered (s : System) (h : nat) (i : Invocation) :
  reachable s ->
  invocations s !! h = Some i ->
  outcome i <> None ->
  (forall key, (key, h) ∉ activeClaudeProcesses s) /\
  (forall key, isClaudeSessionActive key s = true ->
     exists h' i', (key, h') ∈ activeClaudeProcesses s /\
                   invocations s !! h' = Some i' /\
                   status i' = Alive /\ outcome i' = None /\ current_key i' = key).
Proof.
  intros Hreach Hi Hout. destruct (reachable_ok s Hreach) as (Hnd & Hent & Hcl).
  rewrite Forall_forall in Hent. rewrite Forall_forall in Hcl. split.
  - intros key Hin. destruct (Hent _ Hin) as (i0 & Hi0 & Hst & _).
    simpl in Hi0. rewrite Hi in Hi0. simplify_eq.
    apply Hout. by apply (Hcl i0 (list_elem_of_lookup_2 _ _ _ Hi)).
  - intros key Hact. unfold isClaudeSessionActive, map_has in Hact.
    destruct (map_get key (activeClaudeProcesses s)) as [h'|] eqn:Hget; [|done].
    apply map_get_Some in Hget.
    destruct (Hent _ Hget) as (i' & Hi' & Hst & Hkey). simpl in *.
    exists h', i'. repeat split; try done.
    by apply (Hcl i' (list_elem_of_lookup_2 _ _ _ Hi')).
Qed.

(** Right after the synchronous part of the [close] handler, and right
    after the [error] handler, the key of the invocation is inactive. *)
Lemma close_begin_unregisters reg i code signal :
  map_has (current_key i) (close_begin (reg, i) code signal).1 = false.
Proof. simpl. apply map_has_delete. Qed.

Lemma on_error_unregisters reg i message :
  map_has (current_key i) (on_error (reg, i) message).1 = false.
Proof. simpl. apply map_has_delete. Qed.

End RegistryInvariant.

(** ** Runs of the registry *)

Section RegistryRuns.
Import ClaudeCli.

(** Two invocations interleave: a fresh session is started at time 1000
    under the provisional key ["1000"], a second call resumes session
    ["abc"], and then the first init record of the fresh session reveals
    the id ["abc"] as well.  The rekey deletes ["1000"] and overwrites
    the entry of ["abc"]: one key, one handle.  An abort of ["abc"], or
    the [close] event of the process, then leaves nothing behind. *)
Lemma registry_one_handle_per_key_witness :
  let fresh := mkOptions None None None None true None None in
  let resumed := mkOptions (Some (lit "abc")) None None None true None None in
  let init := mkResponse (Some (lit "system")) (Some (lit "init")) (Some (lit "abc")) in
  let s1 := queryClaude 1000 (Some (lit "hi")) fresh initial in
  let s2 := queryClaude 1001 (Some (lit "more")) resumed s1 in
  let s3 := at_handle 0 (fun st => stdout_data 0 st [Parsed init]) s2 in
  (activeClaudeProcesses s1 = [(lit "1000", 0)] /\
   activeClaudeProcesses s2 = [(lit "1000", 0); (lit "abc", 1)] /\
   activeClaudeProcesses s3 = [(lit "abc", 0)]) /\
  (NoDup (getActiveClaudeSessions s3) /\
   length (handles_under (lit "abc") (activeClaudeProcesses s3)) <= 1) /\
  (map_get (lit "abc") (activeClaudeProcesses s3) = Some 0 /\
   isClaudeSessionActive (lit "1000") s3 = false) /\
  ((lit "abc", 0) ∉
     activeClaudeProcesses (at_handle 0 (fun st => close_begin st (Some 0%Z) None) s3)) /\
  isClaudeSessionActive (lit "abc") (abortClaudeSession (lit "abc") s3).1 = false.
Proof.
  intros fresh resumed init s1 s2 s3.
  assert (reachable s2) as Hreach2.
  { eapply rtc_l; [apply (step_spawn 1000 (Some (lit "hi")) fresh)|].
    eapply rtc_l; [apply (step_spawn 1001 (Some (lit "more")) resumed)|].
    apply rtc_refl. }
  assert (reachable s3) as Hreach3.
  { eapply rtc_r; [exact Hreach2|].
    apply (step_stdout 0 (spawn_invocation 1000 (Some (lit "hi")) fresh) [Parsed init]);
      reflexivity. }
  split; [repeat split; reflexivity|].
  destruct (registry_one_handle_per_key s2 (lit "1000") Hreach2)
    as (_ & _ & _ & _ & Hrekey & _).
  destruct (registry_one_handle_per_key s3 (lit "abc") Hreach3)
    as (Hnd & Hlen & _ & _ & _ & Hclose & _ & Habort).
  split; [by split|]. split.
  - apply (Hrekey 0 (spawn_invocation 1000 (Some (lit "hi")) fresh) init);
      [reflexivity | reflexivity | reflexivity | vm_compute; discriminate].
  - split; [|exact Habort].
    destruct (invocations s3 !! 0) as [i|] eqn:Hi; [|discriminate].
    exact (Hclose 0 i (Some 0%Z) None (lit "abc") Hi).
Defined.

(** Two invocations on one session id: the second [set] overwrites the
    entry of the first, and the key still holds one handle. *)
Example concurrent_invocations_one_entry :
  let resumed := mkOptions (Some (lit "abc")) None None None true None None in
  let s := queryClaude 1001 (Some (lit "again")) resumed
             (queryClaude 1000 (Some (lit "hi")) resumed initial) in
  activeClaudeProcesses s = [(lit "abc", 1)] /\
  handles_under (lit "abc") (activeClaudeProcesses s) = [1].
Proof. split; reflexivity. Qed.

(** The same session, then terminated by a signal: once the [close]
    handler has rejected the promise, nothing is left in the registry. *)
Lemma settled_invocation_unregistered_witness :
  let fresh := mkOptions None None None None true None None in
  let init := Parsed (mkResponse (Some (lit "system")) (Some (lit "init"))
                        (Some (lit "abc"))) in
  let s1 := queryClaude 1000 (Some (lit "hi")) fresh initial in
  let s2 := at_handle 0 (fun st => stdout_data 0 st [init]) s1 in
  let s3 := at_handle 0 (fun st => close_begin st None (Some (lit "SIGTERM"))) s2 in
  let s4 := at_handle 0 (fun st => (st.1, close_finish st.2)) s3 in
  (outcome <$> invocations s4 !! 0)
    = Some (Some (Rejected (lit "Claude CLI exited with code null"))) /\
  activeClaudeProcesses s4 = [] /\
  forall key, (key, 0) ∉ activeClaudeProcesses s4.
Proof.
  intros fresh init s1 s2 s3 s4.
  split; [reflexivity|]. split; [reflexivity|].
  assert (reachable s4) as Hreach.
  { eapply rtc_l; [apply (step_spawn 1000 (Some (lit "hi")) fresh)|].
    eapply rtc_l;
      [apply (step_stdout 0 (spawn_invocation 1000 (Some (lit "hi")) fresh) [init]);
       reflexivity|].
    eapply rtc_l;
      [eapply (step_close_begin 0 _ None (Some (lit "SIGTERM"))); [reflexivity|by left]|].
    eapply rtc_l; [eapply (step_close_finish 0); reflexivity|].
    apply rtc_refl. }
  destruct (invocations s4 !! 0) as [i|] eqn:Hi; [|discriminate].
  apply (settled_invocation_unregistered s4 0 i Hreach Hi).
  vm_compute in Hi. injection Hi as <-. discriminate.
Defined.

End RegistryRuns.

(** ** The session manager and the service start *)

Section StaleSessions.
Import FeishuDb SessionManager.

(** For a conversation with a persisted record, [getOrCreateSession]
    returns the record as stored and only touches its last activity. *)
Lemma getOrCreateSession_present mgr fs now event db conversationId session :
  getConversationId event = Ok conversationId ->
  getSession conversationId db = Some session ->
  getOrCreateSession mgr fs now event db
    = (updateSessionActivity now (id session) db, Ok session).
Proof.
  intros Hconv Hget. unfold getOrCreateSession. rewrite Hconv.
  unfold getConversationId, getFeishuId, getSessionType in *.
  destruct (message event) as [m|]; [|done].
  repeat case_match; simplify_eq; by rewrite ?Hget.
Qed.

Lemma updateSessionActivity_ids now sid db :
  claude_session_id <$> updateSessionActivity now sid db = claude_session_id <$> db.
Proof.
  unfold updateSessionActivity. rewrite <- list_fmap_compose.
  apply list_fmap_ext. intros _ r _. simpl. by case_bool_decide.
Qed.

(** A record without a process-session id, or with one that the registry
    does not hold, is not busy. *)
Lemma isSessionBusy_inactive session sys :
  ClaudeCli.isClaudeSessionActive (default [] (claude_session_id session)) sys = false ->
  isSessionBusy (Some session) sys = false.
Proof. intros H. unfold isSessionBusy. rewrite H. by destruct (truthy _). Qed.

(** C2 (failing input): after a restart the registry is empty and the
    store still holds the id [0105e522] for the conversation
    [user-ou_1].  [getOrCreateSession] returns the record with that id,
    and the store keeps it; only the last activity changes.
    ([isSessionBusy] is false on the returned record.) *)
Theorem getOrCreateSession_keeps_stale_id :
  let stale := mkSessionRecord 11 (lit "user-ou_1") (lit "ou_1") (lit "private")
                 (lit "/srv/feicc/user-ou_1") (Some (lit "0105e522")) 1 100 true in
  let event := mkEvent (Some (mkMessage (Some (lit "p2p")) (Some (lit "oc_9"))))
                 (Some (lit "ou_1")) in
  let mgr := mkManager 1 (lit "./feicc") in
  let fs := mkProvisioning (fun p => p) None in
  ClaudeCli.isClaudeSessionActive (lit "0105e522") ClaudeCli.initial = false /\
  getOrCreateSession mgr fs 200 event [stale]
    = ([with_last_activity 200 stale], Ok stale) /\
  claude_session_id stale = Some (lit "0105e522") /\
  claude_session_id (with_last_activity 200 stale) = Some (lit "0105e522") /\
  isSessionBusy (Some stale) ClaudeCli.initial = false.
Proof. repeat split; vm_compute; reflexivity. Qed.

End StaleSessions.

Section ServiceStart.
Import FeishuDb FeishuService.

(** [start] never writes to the store. *)
Lemma start_store_unchanged env svc db : (start env svc db).1.2 = db.
Proof.
  unfold start. destruct (isRunning svc); [done|].
  destruct (loadConfig env svc) as [svc1 [[app_id app_secret]|e]]; [|done].
  by destruct (connect_error env).
Qed.

(** C3 (failing input): the store holds a record with the process-session
    id [0105e522] when the service starts.  [start] succeeds, the client
    accepts messages, and the store is unchanged: the id is still
    there. *)
Theorem start_keeps_persisted_ids :
  let stale := mkSessionRecord 11 (lit "user-ou_1") (lit "ou_1") (lit "private")
                 (lit "/srv/feicc/user-ou_1") (Some (lit "0105e522")) 1 100 true in
  let env := mkEnvironment (Some 1%Z) (Some (lit "cli_app", lit "secret")) None in
  let '(svc, db, error) := start env constructor [stale] in
  error = None /\ isRunning svc = true /\
  (accepting <$> client svc) = Some true /\
  db = [stale] /\ all_cleared db = false /\
  all_cleared (clearAllClaudeSessionIds [stale]).1 = true.
Proof. repeat split; vm_compute; reflexivity. Qed.

End ServiceStart.

(** * Further properties of the output aggregator *)

Section SplitShape.
Import MessageWriter.


(** The index [lastIndexOf] returns, when it is not [-1], holds the
    character searched for. *)
Lemma lastIndexOf_scan_char c s position i found k :
  lastIndexOf_scan c s position i found = Z.of_nat k ->
  found = Z.of_nat k \/ (i <= k /\ s !! (k - i) = Some c).
Proof.
  revert i found. induction s as [|x rest IH]; intros i found; simpl.
  - by left.
  - destruct (Nat.ltb_spec position i) as [Hlt|Hge]; [by left|].
    intros Hscan. destruct (IH _ _ Hscan) as [Hfound|[Hle Hk]].
    + destruct (N.eqb_spec x c) as [->|Hne]; [|by left].
      right. assert (k = i) as -> by lia. split; [lia|].
      by rewrite Nat.sub_diag.
    + right. split; [lia|]. replace (k - i) with (S (k - S i)) by lia. done.
Qed.

Lemma lastIndexOf_char c s position k :
  lastIndexOf c s position = Z.of_nat k -> s !! k = Some c.
Proof.
  unfold lastIndexOf. intros Hscan.
  destruct (lastIndexOf_scan_char _ _ _ _ _ _ Hscan) as [Hneg|[_ Hk]]; [lia|].
  by rewrite Nat.sub_0_r in Hk.
Qed.

Lemma last_take_lookup (s : jsstring) k c :
  s !! k = Some c -> last (take (S k) s) = Some c.
Proof.
  intros Hk. rewrite last_lookup.
  pose proof (lookup_lt_Some _ _ _ Hk) as Hlt.
  rewrite length_take. replace (pred (S k `min` length s)) with k by lia.
  rewrite lookup_take_lt by lia. done.
Qed.

(** A cut that is not at the bound itself is just after a newline or a
    space. *)
Lemma splitIndex_boundary remaining maxLength :
  splitIndex remaining maxLength = maxLength \/
  ends_at_boundary (substring_to (splitIndex remaining maxLength) remaining) = true.
Proof.
  unfold splitIndex, in_trailing_fifth, ends_at_boundary, substring_to.
  pose proof (lastIndexOf_bounds newline remaining maxLength) as Hnl.
  pose proof (lastIndexOf_bounds space remaining maxLength) as Hsp.
  destruct (Z.ltb_spec (4 * Z.of_nat maxLength) (5 * lastIndexOf newline remaining maxLength)).
  - right.
    pose proof (lastIndexOf_char newline remaining maxLength
                  (Z.to_nat (lastIndexOf newline remaining maxLength))) as Hc.
    rewrite Z2Nat.id in Hc by lia. specialize (Hc eq_refl).
    replace (Z.to_nat (lastIndexOf newline remaining maxLength + 1))
      with (S (Z.to_nat (lastIndexOf newline remaining maxLength))) by lia.
    rewrite (last_take_lookup _ _ _ Hc). by rewrite N.eqb_refl.
  - destruct (Z.ltb_spec (4 * Z.of_nat maxLength) (5 * lastIndexOf space remaining maxLength));
      [|by left].
    right.
    pose proof (lastIndexOf_char space remaining maxLength
                  (Z.to_nat (lastIndexOf space remaining maxLength))) as Hc.
    rewrite Z2Nat.id in Hc by lia. specialize (Hc eq_refl).
    replace (Z.to_nat (lastIndexOf space remaining maxLength + 1))
      with (S (Z.to_nat (lastIndexOf space remaining maxLength))) by lia.
    rewrite (last_take_lookup _ _ _ Hc). rewrite N.eqb_refl. apply orb_true_r.
Qed.

(** What the loop adds: chunks that are full or end at a boundary,
    followed by at most one last chunk; none of them empty or longer than
    [maxLength + 1]. *)
Lemma splitLoop_shape fuel maxLength remaining chunks out :
  1 <= maxLength ->
  splitLoop fuel maxLength remaining chunks = Some out ->
  exists body tail,
    out = chunks ++ body ++ tail /\ length tail <= 1 /\
    Forall (fun c => length c = maxLength \/ ends_at_boundary c = true) body /\
    Forall (fun c => 1 <= length c <= maxLength + 1) (body ++ tail).
Proof.
  intros Hn. revert remaining chunks.
  induction fuel as [|fuel IH]; intros remaining chunks Hrun; [done|].
  simpl in Hrun.
  destruct (Nat.eqb_spec (length remaining) 0) as [H0|H0].
  { simplify_eq. exists [], []. simpl. rewrite app_nil_r.
    repeat split; try done; lia. }
  destruct (Nat.leb_spec (length remaining) maxLength) as [Hle|Hgt].
  { simplify_eq. exists [], [remaining]. simpl.
    repeat split; try done. apply Forall_singleton. lia. }
  destruct (IH _ _ Hrun) as (body & tail & -> & Htail & Hbody & Hsize).
  pose proof (splitIndex_range remaining maxLength Hn) as Hk.
  exists (substring_to (splitIndex remaining maxLength) remaining :: body), tail.
  split; [by rewrite <- app_assoc|]. split; [done|]. split.
  - apply Forall_cons. split; [|done].
    destruct (splitIndex_boundary remaining maxLength) as [Heq|Hb]; [left|by right].
    unfold substring_to. rewrite length_take, Heq. lia.
  - simpl. apply Forall_cons. split; [|done].
    unfold substring_to. rewrite length_take. lia.
Qed.

(** X1: for a bound [n >= 1] and a text longer than the bound, the chunks
    are never empty and never longer than [n + 1]; every chunk but the
    last is either exactly [n] characters long or ends just after a
    newline or a space. *)
Theorem splitMessage_chunk_shape (text : jsstring) (n fuel : nat) chunks :
  1 <= n -> n < length text ->
  splitMessage fuel text n = Some chunks ->
  exists body tail,
    chunks = body ++ tail /\ length tail <= 1 /\
    Forall (fun c => length c = n \/ ends_at_boundary c = true) body /\
    Forall (fun c => 1 <= length c <= n + 1) chunks.
Proof.
  intros Hn Hlong. unfold splitMessage.
  destruct (Nat.leb_spec (length text) n) as [Hle|_]; [lia|].
  intros Hrun.
  destruct (splitLoop_shape _ _ _ _ _ Hn Hrun) as (body & tail & -> & Htail & Hbody & Hsize).
  by exists body, tail.
Qed.

Lemma splitMessage_chunk_shape_witness :
  splitMessage 20 (lit "one two three four") 8
    = Some [lit "one two "; lit "three fo"; lit "ur"] /\
  exists body tail,
    [lit "one two "; lit "three fo"; lit "ur"] = body ++ tail /\ length tail <= 1 /\
    Forall (fun c => length c = 8 \/ ends_at_boundary c = true) body /\
    Forall (fun c => 1 <= length c <= 8 + 1) [lit "one two "; lit "three fo"; lit "ur"].
Proof.
  split; [reflexivity|].
  apply (splitMessage_chunk_shape (lit "one two three four") 8 20);
    [lia | vm_compute; lia | reflexivity].
Defined.

(** X2: a text without any newline or space is cut at the multiples of
    the bound: no chunk is longer than the bound. *)
Theorem splitMessage_no_boundary_within_bound (text : jsstring) (n fuel : nat) chunks :
  1 <= n ->
  newline ∉ text -> space ∉ text ->
  splitMessage fuel text n = Some chunks ->
  Forall (fun c => length c <= n) chunks.
Proof.
  intros Hn Hnl Hsp. unfold splitMessage.
  destruct (Nat.leb_spec (length text) n) as [Hle|Hgt].
  { intros [= <-]. by apply Forall_singleton. }
  assert (forall fuel remaining acc out,
            newline ∉ remaining -> space ∉ remaining ->
            splitLoop fuel n remaining acc = Some out ->
            Forall (fun c => length c <= n) acc ->
            Forall (fun c => length c <= n) out) as Hgen.
  { clear. intros fuel. induction fuel as [|fuel IH];
      intros remaining acc out Hnl Hsp Hrun Hacc; [done|].
    simpl in Hrun.
    destruct (Nat.eqb_spec (length remaining) 0); [by simplify_eq|].
    destruct (Nat.leb_spec (length remaining) n).
    { simplify_eq. apply Forall_app. split; [done|]. by apply Forall_singleton. }
    assert (splitIndex remaining n = n) as Hk.
    { unfold splitIndex, in_trailing_fifth.
      pose proof (lastIndexOf_bounds newline remaining n) as Hb1.
      pose proof (lastIndexOf_bounds space remaining n) as Hb2.
      assert (lastIndexOf newline remaining n = (-1)%Z) as ->.
      { destruct (Z.eq_dec (lastIndexOf newline remaining n) (-1)) as [|Hne]; [done|].
        exfalso. apply Hnl.
        apply (list_elem_of_lookup_2 _ (Z.to_nat (lastIndexOf newline remaining n))).
        apply (lastIndexOf_char _ _ n). lia. }
      assert (lastIndexOf space remaining n = (-1)%Z) as ->.
      { destruct (Z.eq_dec (lastIndexOf space remaining n) (-1)) as [|Hne]; [done|].
        exfalso. apply Hsp.
        apply (list_elem_of_lookup_2 _ (Z.to_nat (lastIndexOf space remaining n))).
        apply (lastIndexOf_char _ _ n). lia. }
      destruct (Z.ltb_spec (4 * Z.of_nat n) (5 * -1)); [lia|done]. }
    rewrite Hk in Hrun. eapply IH; [| |exact Hrun|].
    - intros Hin. apply Hnl. unfold substring_from in Hin.
      by eapply subseteq_drop.
    - intros Hin. apply Hsp. unfold substring_from in Hin.
      by eapply subseteq_drop.
    - apply Forall_app. split; [done|]. apply Forall_singleton.
      unfold substring_to. rewrite length_take. lia. }
  intros Hrun. by eapply Hgen.
Qed.

Lemma splitMessage_no_boundary_within_bound_witness :
  splitMessage 12 (lit "abcdefghij") 4 = Some [lit "abcd"; lit "efgh"; lit "ij"] /\
  Forall (fun c => length c <= 4) [lit "abcd"; lit "efgh"; lit "ij"].
Proof.
  split; [reflexivity|].
  apply (splitMessage_no_boundary_within_bound (lit "abcdefghij") 4 12);
    [lia | | | reflexivity];
    rewrite list_elem_of_In; vm_compute; intuition discriminate.
Defined.

End SplitShape.

Section FlushPolicy.
Import MessageWriter.


Lemma flush_result now w :
  (buffer w = [] /\ flush now w = (w, None)) \/
  (buffer w <> [] /\ exists f,
     flush now w = (set_lastFlushTime now (set_buffer [] (set_timer None w)), Some f) /\
     textToSend f = buffer w /\ concat (unsent f) = buffer w).
Proof.
  unfold flush. destruct (buffer w) as [|c b] eqn:Hb; [by left|]. right.
  split; [done|]. simpl. rewrite Hb.
  destruct (splitMessage_default_total (c :: b)) as (chunks & -> & Hcat).
  by eexists.
Qed.

Lemma flushIfNeeded_cases (now : Z) (w : Writer) :
  if (flushInterval w <=? now - lastFlushTime w)%Z ||
     (flushThreshold w <=? length (buffer w))
  then flushIfNeeded now w = flush now w
  else (flushIfNeeded now w).2 = None /\
       buffer (flushIfNeeded now w).1 = buffer w /\
       flushTimer (flushIfNeeded now w).1
         = Some (default (lastFlushTime w + flushInterval w)%Z (flushTimer w)).
Proof.
  unfold flushIfNeeded.
  destruct ((flushInterval w <=? now - lastFlushTime w)%Z ||
            (flushThreshold w <=? length (buffer w))); [done|].
  destruct (flushTimer w) as [t|] eqn:Ht; simpl; [by rewrite Ht|].
  repeat split. f_equal. lia.
Qed.

(** X4: [flushIfNeeded] flushes as soon as the interval has elapsed or the
    buffer has reached the threshold; otherwise it starts nothing, keeps
    the buffer, and leaves exactly one timer armed: the one that was
    armed already, or a new one that fires when the interval since the
    last flush is over.  Either way, afterwards the buffer is empty or a
    timer is armed. *)
Theorem flushIfNeeded_policy (now : Z) (w : Writer) :
  (if (flushInterval w <=? now - lastFlushTime w)%Z ||
      (flushThreshold w <=? length (buffer w))
   then flushIfNeeded now w = flush now w
   else (flushIfNeeded now w).2 = None /\
        buffer (flushIfNeeded now w).1 = buffer w /\
        flushTimer (flushIfNeeded now w).1
          = Some (default (lastFlushTime w + flushInterval w)%Z (flushTimer w))) /\
  (buffer (flushIfNeeded now w).1 = [] \/ flushTimer (flushIfNeeded now w).1 <> None).
Proof.
  pose proof (flushIfNeeded_cases now w) as H. split; [exact H|].
  destruct ((flushInterval w <=? now - lastFlushTime w)%Z ||
            (flushThreshold w <=? length (buffer w))).
  - rewrite H. destruct (flush_result now w) as [[He ->]|(_ & f & -> & _)]; by left.
  - destruct H as (_ & _ & ->). by right.
Qed.

(** What [flushIfNeeded] does to the buffered text: it stays, or a flush
    captures all of it. *)
Lemma flushIfNeeded_text now w :
  match (flushIfNeeded now w).2 with
  | Some f => textToSend f = buffer w /\ buffer (flushIfNeeded now w).1 = []
  | None => buffer (flushIfNeeded now w).1 = buffer w
  end.
Proof.
  pose proof (flushIfNeeded_cases now w) as H.
  destruct ((flushInterval w <=? now - lastFlushTime w)%Z ||
            (flushThreshold w <=? length (buffer w))).
  - rewrite H. destruct (flush_result now w) as [[He ->]|(_ & f & -> & Ht & _)]; done.
  - by destruct H as (-> & -> & _).
Qed.

End FlushPolicy.

Section SendEffects.
Import MessageWriter.

Lemma ret_appends_only {A : Type} (a : A) : appends_only (ret a).
Proof. intros w w' r [= <- <-]. exists []. by rewrite app_nil_r. Qed.

Lemma lift_appends_only {A : Type} (c : completion A) : appends_only (lift c).
Proof. intros w w' r [= <- <-]. exists []. by rewrite app_nil_r. Qed.

Lemma appendText_appends_only t : appends_only (modify (appendText t)).
Proof. intros w w' r [= <- <-]. by exists t. Qed.

Lemma modify_appends_only f :
  (forall w, buffer (f w) = buffer w) -> appends_only (modify f).
Proof. intros Hf w w' r [= <- <-]. exists []. by rewrite Hf, app_nil_r. Qed.

Lemma bind_appends_only {A B : Type} (m : M A) (k : A -> M B) :
  appends_only m -> (forall a, appends_only (k a)) -> appends_only (bind m k).
Proof.
  intros Hm Hk w w' r. unfold bind.
  destruct (m w) as [w1 [a|e]] eqn:Hmw.
  - intros Hka. destruct (Hm _ _ _ Hmw) as [t1 Ht1].
    destruct (Hk a _ _ _ Hka) as [t2 Ht2].
    exists (t1 ++ t2). by rewrite Ht2, Ht1, <- app_assoc.
  - intros [= <- <-]. eapply Hm, Hmw.
Qed.

Lemma for_each_appends_only xs body :
  (forall x, appends_only (body x)) -> appends_only (for_each xs body).
Proof.
  intros Hbody. induction xs as [|x xs IH]; simpl.
  - apply ret_appends_only.
  - apply bind_appends_only; [apply Hbody | intros _; apply IH].
Qed.

Lemma for_of_appends_only content body :
  (forall x, appends_only (body x)) -> appends_only (for_of content body).
Proof.
  intros Hbody. unfold for_of.
  destruct content as [[]|]; try (by apply for_each_appends_only);
    apply lift_appends_only.
Qed.

Lemma append_value_appends_only v : appends_only (append_value v).
Proof.
  unfold append_value.
  apply bind_appends_only; [apply lift_appends_only | intros t; apply appendText_appends_only].
Qed.

Lemma append_if_truthy_appends_only v : appends_only (append_if_truthy v).
Proof.
  unfold append_if_truthy.
  destruct (truthy_val v); [apply append_value_appends_only | apply ret_appends_only].
Qed.

Create HintDb appends_only.
#[local] Hint Resolve ret_appends_only lift_appends_only appendText_appends_only
  append_value_appends_only append_if_truthy_appends_only : appends_only.

Ltac appends_only_step :=
  first
    [ apply bind_appends_only; [| intros ?]
    | apply for_of_appends_only; intros ?
    | match goal with |- appends_only (if ?c then _ else _) => destruct c end
    | solve [auto with appends_only]
    | solve [apply modify_appends_only; intros []; reflexivity] ].

Lemma handleSessionCreated_appends_only message :
  appends_only (handleSessionCreated message).
Proof. unfold handleSessionCreated. repeat appends_only_step. Qed.

Lemma handleClaudeResponse_appends_only data :
  appends_only (handleClaudeResponse data).
Proof. unfold handleClaudeResponse. repeat appends_only_step. Qed.

Lemma handleClaudeOutput_appends_only data :
  appends_only (handleClaudeOutput data).
Proof.
  unfold handleClaudeOutput.
  destruct data as [[| | | [|c s] | |]|]; auto with appends_only.
Qed.

Lemma handleError_appends_only error : appends_only (handleError error).
Proof. unfold handleError. repeat appends_only_step. Qed.

Lemma send_try_text JSON_parse now data w w' r :
  send_try JSON_parse now data w = (w', r) ->
  exists t,
    match r with
    | Normal (Some f) => textToSend f = buffer w ++ t /\ buffer w' = []
    | _ => buffer w' = buffer w ++ t
    end.
Proof.
  unfold send_try, bind.
  destruct (lift _ w) as [w0 [message|e]] eqn:Hparse.
  2:{ intros [= <- <-]. apply lift_appends_only in Hparse. done. }
  apply lift_appends_only in Hparse as [t0 Ht0].
  destruct (lift (getProp message (lit "type")) w0) as [w1 [ty|e]] eqn:Hty.
  2:{ intros [= <- <-]. apply lift_appends_only in Hty as [t1 Ht1].
      exists (t0 ++ t1). by rewrite Ht1, Ht0, <- app_assoc. }
  apply lift_appends_only in Hty as [t1 Ht1].
  match goal with |- context [?m w1] =>
    assert (appends_only m) as Hdisp; [|destruct (m w1) as [w2 [[]|e]] eqn:Hm]
  end.
  { repeat match goal with
           | |- appends_only (if ?c then _ else _) => destruct c
           end;
      auto using handleSessionCreated_appends_only, ret_appends_only;
      (apply bind_appends_only; [apply lift_appends_only|]; intros ?);
      auto using handleClaudeResponse_appends_only, handleClaudeOutput_appends_only,
                 handleError_appends_only. }
  - destruct (Hdisp _ _ _ Hm) as [t2 Ht2].
    pose proof (flushIfNeeded_text now w2) as Hflush.
    destruct (flushIfNeeded now w2) as [w3 f]. simpl in Hflush.
    intros [= <- <-]. exists (t0 ++ t1 ++ t2).
    assert (buffer w2 = buffer w ++ t0 ++ t1 ++ t2) as Hb.
    { by rewrite Ht2, Ht1, Ht0, <- !app_assoc. }
    destruct f as [f|]; [destruct Hflush as [-> ->]|]; by rewrite <- Hb.
  - destruct (Hdisp _ _ _ Hm) as [t2 Ht2].
    intros [= <- <-]. exists (t0 ++ t1 ++ t2).
    by rewrite Ht2, Ht1, Ht0, <- !app_assoc.
Qed.

(** X6: [send] never loses buffered text.  Whatever the payload, the text
    buffered before the call is still there afterwards, in order and in
    front of whatever the call appended: in the buffer, or, when the call
    started a flush, as the text that flush has captured. *)
Theorem send_keeps_buffered_text (JSON_parse : jsstring -> option json)
    (now : Z) (data : jsval) (w w' : Writer) (res : SendResult) :
  send JSON_parse now data w = (w', Normal res) ->
  exists t,
    match started res with
    | Some f => textToSend f = buffer w ++ t /\ buffer w' = []
    | None => buffer w' = buffer w ++ t
    end.
Proof.
  unfold send.
  destruct (send_try JSON_parse now data w) as [w1 [f|e]] eqn:Htry.
  - intros [= <- <-]. simpl. by destruct (send_try_text _ _ _ _ _ _ Htry) as [t Ht]; exists t.
  - destruct (error_message e); [|done]. intros [= <- <-]. simpl.
    by destruct (send_try_text _ _ _ _ _ _ Htry) as [t Ht]; exists t.
Qed.

Lemma send_keeps_buffered_text_witness :
  let parse := fun _ : jsstring => @None json in
  let w := appendText (lit "kept") (constructor 0 (lit "chat") None) in
  let payload := Some (JObj [(lit "type", JStr (lit "claude-output"));
                             (lit "data", JStr (lit " more"))]) in
  send parse 10 payload w
    = (set_timer (Some 3000%Z) (appendText (lit " more") w),
       Normal (mkSendResult None None)) /\
  exists t, buffer (set_timer (Some 3000%Z) (appendText (lit " more") w))
            = buffer w ++ t.
Proof.
  intros parse w payload. split; [reflexivity|].
  exact (send_keeps_buffered_text parse 10 payload w _ (mkSendResult None None) eq_refl).
Defined.

Lemma block_body_text block w :
  (bty <- lift (getProp (Some block) (lit "type")) ;;
   if is_lit bty "text" then
     btext <- lift (getProp (Some block) (lit "text")) ;;
     append_if_truthy btext
   else ret tt) w
  = match block_text block with
    | Some t => (set_buffer (buffer w ++ t) w, Normal tt)
    | None => (w, Throw TypeError)
    end.
Proof.
  unfold bind, lift, ret, append_if_truthy, append_value, modify, appendText, block_text.
  destruct block as [| | | | |fields]; simpl; try done;
    try (f_equal; rewrite app_nil_r; by destruct w).
  destruct (is_lit (assoc (lit "type") fields) "text"); simpl;
    [|f_equal; rewrite app_nil_r; by destruct w].
  destruct (truthy_val (assoc (lit "text") fields)); simpl;
    [|f_equal; rewrite app_nil_r; by destruct w].
  unfold bind, lift. simpl.
  destruct (toStr_val (assoc (lit "text") fields)) as [s|e] eqn:Hs; [done|].
  destruct (assoc (lit "text") fields) as [j|]; simpl in Hs; [|done].
  by rewrite (toStr_throws _ _ Hs).
Qed.

Lemma for_each_block_text blocks w :
  for_each blocks (fun block =>
      bty <- lift (getProp (Some block) (lit "type")) ;;
      if is_lit bty "text" then
        btext <- lift (getProp (Some block) (lit "text")) ;;
        append_if_truthy btext
      else ret tt) w
    = (set_buffer (buffer w ++ concat (block_texts blocks)) w,
       if forallb (fun block => bool_decide (is_Some (block_text block))) blocks
       then Normal tt else Throw TypeError).
Proof.
  revert w. induction blocks as [|block blocks IH]; intros w.
  - simpl. unfold ret. rewrite app_nil_r. by destruct w.
  - cbn [for_each block_texts forallb]. unfold bind at 1.
    rewrite block_body_text. destruct (block_text block) as [t|].
    + rewrite IH. rewrite bool_decide_eq_true_2 by done.
      simpl. by rewrite <- app_assoc.
    + rewrite bool_decide_eq_false_2 by (by intros [? ?]).
      simpl. rewrite app_nil_r. by destruct w.
Qed.

(** X7: an assistant message whose content is an array appends the text
    of its text blocks, in the order of the array, and skips the other
    blocks.  A block that is [null], or whose text cannot be converted to
    a string (an object that has a [toString] entry of its own), ends
    the loop with a [TypeError]: what the blocks in front of it
    contributed stays in the buffer, the blocks after it are not read. *)
Theorem assistant_blocks_appended_in_order (fields mfields : list (jsstring * json))
    (blocks : list json) (w : Writer) :
  is_lit (assoc (lit "type") fields) "assistant" = true ->
  assoc (lit "message") fields = Some (JObj mfields) ->
  assoc (lit "content") mfields = Some (JArr blocks) ->
  handleClaudeResponse (Some (JObj fields)) w
    = (set_buffer (buffer w ++ concat (block_texts blocks)) w,
       if forallb (fun block => bool_decide (is_Some (block_text block))) blocks
       then Normal tt else Throw TypeError).
Proof.
  intros Hty Hmsg Hcontent.
  unfold handleClaudeResponse. simpl.
  unfold bind at 1. simpl. rewrite Hty. simpl.
  unfold bind at 1. simpl. rewrite Hmsg.
  unfold bind at 1. simpl. rewrite Hcontent. simpl.
  by apply for_each_block_text.
Qed.

(** Three blocks, the second a tool call: both texts are appended.  With
    a second block whose text is the object [{toString: 1}] instead, the
    first text is appended and the handler throws. *)
Lemma assistant_blocks_appended_in_order_witness :
  let tool := JObj [(lit "type", JStr (lit "tool_use"))] in
  let text v := JObj [(lit "type", JStr (lit "text")); (lit "text", v)] in
  let odd := JObj [(lit "toString", JNum true (lit "1"))] in
  let message blocks :=
    [(lit "type", JStr (lit "assistant"));
     (lit "message", JObj [(lit "role", JStr (lit "assistant"));
                           (lit "content", JArr blocks)])] in
  let w := constructor 0 (lit "chat") None in
  handleClaudeResponse
    (Some (JObj (message [text (JStr (lit "Hello, ")); tool; text (JStr (lit "world"))]))) w
    = (set_buffer (lit "Hello, world") w, Normal tt) /\
  handleClaudeResponse
    (Some (JObj (message [text (JStr (lit "Hello, ")); text odd; text (JStr (lit "world"))]))) w
    = (set_buffer (lit "Hello, ") w, Throw TypeError).
Proof.
  intros tool text odd message w. split.
  - exact (assistant_blocks_appended_in_order
             (message [text (JStr (lit "Hello, ")); tool; text (JStr (lit "world"))])
             _ _ w eq_refl eq_refl eq_refl).
  - exact (assistant_blocks_appended_in_order
             (message [text (JStr (lit "Hello, ")); text odd; text (JStr (lit "world"))])
             _ _ w eq_refl eq_refl eq_refl).
Defined.

(** X8: a [session-created] payload with a session id makes that id the
    session id of the writer; nothing is logged as an error. *)
Theorem send_session_created_sets_id (JSON_parse : jsstring -> option json)
    (now : Z) (s : jsstring) (fields : list (jsstring * json)) (id : json) (w : Writer) :
  JSON_parse s = Some (JObj fields) ->
  is_lit (assoc (lit "type") fields) "session-created" = true ->
  assoc (lit "sessionId") fields = Some id ->
  truthy_val (Some id) = true ->
  exists w' res,
    send JSON_parse now (Some (JStr s)) w = (w', Normal res) /\
    sessionId w' = Some id /\ logged res = None.
Proof.
  intros Hparse Hty Hid Htruthy.
  unfold send, send_try.
  unfold bind at 1. simpl. rewrite Hparse.
  unfold bind at 1. simpl. rewrite Hty.
  unfold bind at 1. unfold handleSessionCreated.
  unfold bind at 1. simpl. rewrite Hid, Htruthy. simpl.
  pose proof (flushIfNeeded_cases now (setSessionId (Some id) w)) as Hcases.
  destruct (flushIfNeeded now (setSessionId (Some id) w)) as [w1 f] eqn:Hflush.
  exists w1, (mkSendResult f None). split; [done|]. split; [|done].
  unfold flushIfNeeded, flush in Hflush.
  repeat case_match; simplify_eq; done.
Qed.

Lemma send_session_created_sets_id_witness :
  let fields := [(lit "type", JStr (lit "session-created"));
                 (lit "sessionId", JStr (lit "abc"))] in
  let parse := fun _ : jsstring => Some (JObj fields) in
  exists w' res,
    send parse 10 (Some (JStr (lit "{...}"))) (constructor 0 (lit "chat") None)
      = (w', Normal res) /\
    sessionId w' = Some (JStr (lit "abc")) /\ logged res = None.
Proof.
  intros fields parse.
  exact (send_session_created_sets_id parse 10 (lit "{...}") fields (JStr (lit "abc"))
           (constructor 0 (lit "chat") None) eq_refl eq_refl eq_refl eq_refl).
Defined.

End SendEffects.

(** ** Flushes in flight *)

Section FlushRuns.
Import MessageWriter.
Variable JSON_parse : jsstring -> option json.

(** [complete] and the timer callback start a flush exactly when the
    buffer is not empty; they leave the buffer empty and no timer. *)
Lemma complete_result now w :
  flushTimer (complete now w).1 = None /\ buffer (complete now w).1 = [] /\
  match buffer w with
  | [] => complete now w = (set_timer None w, None)
  | _ :: _ => exists f, (complete now w).2 = Some f /\
                        textToSend f = buffer w /\ concat (unsent f) = buffer w
  end.
Proof.
  unfold complete. simpl. destruct (buffer w) as [|c b] eqn:Hb; simpl.
  - by rewrite Hb.
  - destruct (flush_result now (set_timer None w)) as [[He _]|(_ & f & -> & Ht & Hc)].
    { simpl in He. congruence. }
    simpl in *. repeat split; try done. exists f. by rewrite Ht, Hc.
Qed.

Lemma timer_fired_complete now w : timer_fired now w = complete now w.
Proof. done. Qed.



(** One turn of the event loop while a flush is, and stays, the only one
    in flight: it keeps its text, what it has delivered and what it has
    yet to send add up to the same chunks, and the buffer only grows. *)
Lemma sole_flush_step a f ev :
  inflight a = [f] ->
  length (inflight (agg_step JSON_parse a ev)) = 1 ->
  exists t f1,
    inflight (agg_step JSON_parse a ev) = [f1] /\ textToSend f1 = textToSend f /\
    delivered (agg_step JSON_parse a ev) ++ unsent f1 = delivered a ++ unsent f /\
    buffer (writer (agg_step JSON_parse a ev)) = buffer (writer a) ++ t.
Proof.
  intros Hin. destruct ev as [now data|now|now|k|k]; simpl.
  - unfold send.
    destruct (send_try JSON_parse now data (writer a)) as [w1 [fl|e]] eqn:Htry.
    + destruct (send_try_text _ _ _ _ _ _ Htry) as [t Ht].
      unfold start_flush. simpl. rewrite Hin.
      destruct fl as [f'|]; [done|]. intros _. by exists t, f.
    + destruct (send_try_text _ _ _ _ _ _ Htry) as [t Ht].
      destruct (error_message e); unfold start_flush; simpl;
        rewrite Hin; intros _; by exists t, f.
  - destruct (flushTimer (writer a)) as [due|];
      [|intros _; exists [], f; by rewrite app_nil_r].
    destruct (due <=? now)%Z; [|intros _; exists [], f; by rewrite app_nil_r].
    rewrite timer_fired_complete.
    destruct (complete_result now (writer a)) as (_ & Hempty & Hstart).
    unfold start_flush. simpl. rewrite Hin.
    destruct (buffer (writer a)) as [|c b] eqn:Hb.
    + rewrite Hstart. simpl. intros _. exists [], f. by rewrite Hb.
    + destruct Hstart as (f' & -> & _). done.
  - destruct (complete_result now (writer a)) as (_ & Hempty & Hstart).
    unfold start_flush. simpl. rewrite Hin.
    destruct (buffer (writer a)) as [|c b] eqn:Hb.
    + rewrite Hstart. simpl. intros _. exists [], f. by rewrite Hb.
    + destruct Hstart as (f' & -> & _). done.
  - rewrite Hin. destruct k as [|k]; simpl.
    + destruct (unsent f) as [|chunk [|c2 rest]] eqn:Hun; simpl; [done|done|].
      intros _. exists [], (mkFlush (textToSend f) (c2 :: rest)). simpl.
      by rewrite app_nil_r, <- app_assoc.
    + rewrite Hin. intros _. exists [], f. by rewrite app_nil_r.
  - rewrite Hin. destruct k as [|k]; simpl; [done|].
    rewrite Hin. intros _. exists [], f. by rewrite app_nil_r.
Qed.

Lemma sole_flush_run a f evs :
  inflight a = [f] ->
  Forall (fun a' => length (inflight a') = 1) (agg_states JSON_parse a evs) ->
  exists t f1,
    inflight (agg_run JSON_parse a evs) = [f1] /\ textToSend f1 = textToSend f /\
    delivered (agg_run JSON_parse a evs) ++ unsent f1 = delivered a ++ unsent f /\
    buffer (writer (agg_run JSON_parse a evs)) = buffer (writer a) ++ t.
Proof.
  revert a f. induction evs as [|ev evs IH]; intros a f Hin Hall.
  - exists [], f. by rewrite app_nil_r.
  - cbn [agg_states] in Hall. apply Forall_cons in Hall as [Hone Hall].
    destruct (sole_flush_step a f ev Hin Hone) as (t1 & f1 & Hin1 & Ht1 & Hd1 & Hb1).
    destruct (IH _ f1 Hin1 Hall) as (t2 & f2 & Hin2 & Ht2 & Hd2 & Hb2).
    exists (t1 ++ t2), f2. unfold agg_run in *. cbn [foldl].
    split; [done|]. split; [congruence|]. split; [congruence|].
    by rewrite Hb2, Hb1, <- app_assoc.
Qed.

(** X5: while a flush is the only one in flight, whatever the stream
    sends and whatever timers fire, the buffer only grows, and the chunks
    already delivered followed by those still to send are the chunks the
    flush started with.  If its send then fails, the whole captured text
    goes back in front of the buffer, before everything appended
    meanwhile; if its last chunk is sent, all its chunks have been
    delivered in order and the buffer keeps what was appended. *)
Theorem sole_flush_delivers_or_rebuffers (a : Aggregator) (f : Flush) (evs : list Event) :
  inflight a = [f] ->
  Forall (fun a' => length (inflight a') = 1) (agg_states JSON_parse a evs) ->
  let a1 := agg_run JSON_parse a evs in
  exists t f1,
    inflight a1 = [f1] /\ textToSend f1 = textToSend f /\
    delivered a1 ++ unsent f1 = delivered a ++ unsent f /\
    buffer (writer a1) = buffer (writer a) ++ t /\
    (let a2 := agg_step JSON_parse a1 (ChunkFailed 0) in
     inflight a2 = [] /\ delivered a2 = delivered a1 /\
     buffer (writer a2) = textToSend f ++ buffer (writer a) ++ t) /\
    (forall chunk, unsent f1 = [chunk] ->
     let a2 := agg_step JSON_parse a1 (ChunkSent 0) in
     inflight a2 = [] /\ delivered a2 = delivered a ++ unsent f /\
     buffer (writer a2) = buffer (writer a) ++ t).
Proof.
  intros Hin Hall a1.
  destruct (sole_flush_run a f evs Hin Hall) as (t & f1 & Hin1 & Ht1 & Hd1 & Hb1).
  exists t, f1. fold a1 in Hin1, Hd1, Hb1.
  split; [done|]. split; [done|]. split; [done|]. split; [done|]. split.
  - unfold agg_step. rewrite Hin1. simpl. unfold flush_failed. simpl.
    by rewrite Hb1, Ht1.
  - intros chunk Hlast. unfold agg_step. rewrite Hin1. simpl. rewrite Hlast. simpl.
    rewrite Hlast in Hd1. done.
Qed.

End FlushRuns.

Section FlushRunsExamples.
Import MessageWriter.

(** A send starts a flush of [AAA]; while it is in flight a second send
    buffers [BBB] and arms the timer.  If the flush fails now, the buffer
    reads [AAABBB]; if its chunk is sent, [AAA] is delivered and [BBB]
    stays buffered. *)
Lemma sole_flush_delivers_or_rebuffers_witness :
  let parse := fun _ : jsstring => @None json in
  let output t := Some (JObj [(lit "type", JStr (lit "claude-output"));
                              (lit "data", JStr (lit t))]) in
  let a := agg_step parse (mkAggregator (constructor 0 (lit "chat") None) [] [])
             (Send 3500 (output "AAA")) in
  let a1 := agg_run parse a [Send 3600 (output "BBB")] in
  inflight a = [mkFlush (lit "AAA") [lit "AAA"]] /\
  buffer (writer (agg_step parse a1 (ChunkFailed 0))) = lit "AAABBB" /\
  delivered (agg_step parse a1 (ChunkSent 0)) = [lit "AAA"] /\
  buffer (writer (agg_step parse a1 (ChunkSent 0))) = lit "BBB".
Proof.
  intros parse output a a1. split; [reflexivity|].
  assert (Forall (fun a' => length (inflight a') = 1)
            (agg_states parse a [Send 3600 (output "BBB")])) as Hall.
  { repeat constructor. }
  destruct (sole_flush_delivers_or_rebuffers parse a _ _ eq_refl Hall)
    as (t & f1 & Hin1 & _ & _ & Hbuf & (_ & _ & Hfail) & Hsent).
  assert (t = lit "BBB") as -> by (vm_compute in Hbuf; by rewrite <- Hbuf).
  split; [exact Hfail|].
  assert (unsent f1 = [lit "AAA"]) as Hlast.
  { vm_compute in Hin1. by injection Hin1 as <-. }
  destruct (Hsent _ Hlast) as (_ & Hd & Hb). by split.
Defined.


End FlushRunsExamples.

(** * Further properties of the process runner and the registry *)

Section RegistryOperations.
Import ClaudeCli.

(** X11: the first init record with a session id, for a session started
    without one, moves the registry entry of the process from its
    provisional key to the session id: the session id now leads to the
    handle, the provisional key leads nowhere, and no other key is
    affected. *)
Theorem first_init_rekeys (h : nat) (reg : Registry) (i : Invocation) (r : Response)
    (key' : jsstring) :
  rtype r = Some (lit "system") -> subtype r = Some (lit "init") ->
  truthy (session_id r) = true ->
  truthy (capturedSessionId i) = false ->
  processKey i <> text_of (session_id r) ->
  let reg' := (stdout_line h (reg, i) (Parsed r)).1 in
  let i' := (stdout_line h (reg, i) (Parsed r)).2 in
  capturedSessionId i' = session_id r /\
  map_get (text_of (session_id r)) reg' = Some h /\
  map_get (processKey i) reg' = None /\
  (key' <> text_of (session_id r) -> key' <> processKey i ->
   map_get key' reg' = map_get key' reg).
Proof.
  intros Hty Hsub Hid Hcap Hne. unfold stdout_line.
  rewrite !bool_decide_eq_true_2 by done. rewrite Hid, Hcap. simpl.
  rewrite bool_decide_eq_false_2 by done.
  assert (forall k, map_get k (map_set (text_of (session_id r)) h
                                 (map_delete (processKey i) reg))
                    = if bool_decide (k = text_of (session_id r)) then Some h
                      else if bool_decide (k = processKey i) then None
                      else map_get k reg) as Hget.
  { intros k. by rewrite map_get_set, map_get_delete. }
  destruct (negb (truthy (sessionId (options i))) && negb (sessionCreatedSent i));
    simpl; rewrite !Hget; rewrite bool_decide_eq_true_2 by done;
    (split; [done|]); (split; [done|]);
    rewrite (bool_decide_eq_false_2 _ Hne), bool_decide_eq_true_2 by done;
    (split; [done|]); intros H1 H2;
    by rewrite (bool_decide_eq_false_2 _ H1), (bool_decide_eq_false_2 _ H2).
Qed.

Lemma first_init_rekeys_witness :
  let i := spawn_invocation 1000 (Some (lit "hi"))
             (mkOptions None None None None true None None) in
  let r := mkResponse (Some (lit "system")) (Some (lit "init")) (Some (lit "abc")) in
  let reg := [(lit "other", 3); (lit "1000", 7)] in
  (stdout_line 7 (reg, i) (Parsed r)).1 = [(lit "other", 3); (lit "abc", 7)] /\
  map_get (lit "abc") (stdout_line 7 (reg, i) (Parsed r)).1 = Some 7 /\
  map_get (lit "1000") (stdout_line 7 (reg, i) (Parsed r)).1 = None.
Proof.
  intros i r reg. split; [reflexivity|].
  assert (processKey i <> text_of (session_id r)) as Hne by (vm_compute; discriminate).
  destruct (first_init_rekeys 7 reg i r (lit "other")
              eq_refl eq_refl eq_refl eq_refl Hne) as (_ & H1 & H2 & _).
  by split.
Defined.

(** X13: in every reachable state a process is registered under at most
    one key, and that key is the one its own handlers will delete. *)
Theorem handle_registered_under_one_key (s : System) (key key' : jsstring) (h : nat) :
  reachable s ->
  (key, h) ∈ activeClaudeProcesses s ->
  (key', h) ∈ activeClaudeProcesses s ->
  key = key' /\
  exists i, invocations s !! h = Some i /\ current_key i = key /\
            map_get key (activeClaudeProcesses s) = Some h.
Proof.
  intros Hreach Hin Hin'. destruct (reachable_ok s Hreach) as (Hnd & Hent & _).
  rewrite Forall_forall in Hent.
  destruct (Hent _ Hin) as (i & Hi & _ & Hkey).
  destruct (Hent _ Hin') as (i' & Hi' & _ & Hkey'). simpl in *.
  rewrite Hi in Hi'. injection Hi' as <-. split; [congruence|].
  exists i. split; [done|]. split; [done|].
  by apply map_get_elem.
Qed.

Lemma handle_registered_under_one_key_witness :
  let fresh := mkOptions None None None None true None None in
  let init := Parsed (mkResponse (Some (lit "system")) (Some (lit "init"))
                        (Some (lit "abc"))) in
  let s1 := queryClaude 1000 (Some (lit "hi")) fresh initial in
  let s2 := at_handle 0 (fun st => stdout_data 0 st [init]) s1 in
  activeClaudeProcesses s2 = [(lit "abc", 0)] /\
  exists i, invocations s2 !! 0 = Some i /\ current_key i = lit "abc" /\
            map_get (lit "abc") (activeClaudeProcesses s2) = Some 0.
Proof.
  intros fresh init s1 s2. split; [reflexivity|].
  assert (reachable s2) as Hreach.
  { eapply rtc_l; [apply (step_spawn 1000 (Some (lit "hi")) fresh)|].
    eapply rtc_l; [|apply rtc_refl].
    apply (step_stdout 0 (spawn_invocation 1000 (Some (lit "hi")) fresh) [init]);
      reflexivity. }
  assert ((lit "abc", 0) ∈ activeClaudeProcesses s2) as Hin by (vm_compute; left).
  exact (proj2 (handle_registered_under_one_key s2 (lit "abc") (lit "abc") 0
                  Hreach Hin Hin)).
Defined.

End RegistryOperations.

Section RunnerEvents.
Import ClaudeCli.

Lemma not_created_app ms ms' :
  List.filter not_session_created (ms ++ ms')
    = List.filter not_session_created ms ++ List.filter not_session_created ms'.
Proof. apply List.filter_app. Qed.

Lemma stdout_line_forwards h reg i line :
  List.filter not_session_created (sent (stdout_line h (reg, i) line).2)
    = List.filter not_session_created (sent i) ++ option_list (forwarded line).
Proof.
  unfold stdout_line, forwarded. destruct line as [raw|r]; simpl.
  - by rewrite not_created_app.
  - repeat case_match; simpl; rewrite ?not_created_app; simpl;
      by rewrite ?app_nil_r.
Qed.

(** X14: the stdout handler forwards the lines of a chunk in the order
    they arrived and drops none: a line that is not JSON goes out as raw
    text, a record of any type but [system] goes out as it is; the only
    other message it can send is the session announcement. *)
Theorem stdout_forwards_in_order (h : nat) (lines : list StdoutLine)
    (reg : Registry) (i : Invocation) :
  List.filter not_session_created (sent (stdout_data h (reg, i) lines).2)
    = List.filter not_session_created (sent i) ++ omap forwarded lines.
Proof.
  unfold stdout_data. revert reg i.
  induction lines as [|line lines IH]; intros reg i; cbn [foldl].
  - simpl. by rewrite app_nil_r.
  - pose proof (stdout_line_forwards h reg i line) as Hline.
    destruct (stdout_line h (reg, i) line) as [reg1 i1]. simpl in Hline.
    rewrite IH, Hline, <- app_assoc. f_equal.
    simpl. by destruct (forwarded line).
Qed.

Lemma handle_event_outcome h ev reg i o :
  outcome i = Some o -> outcome (handle_event h (reg, i) ev).2 = Some o.
Proof.
  intros Hout. destruct ev as [lines|text|code signal|message]; simpl.
  - rewrite <- Hout. clear Hout. unfold stdout_data. revert reg i.
    induction lines as [|line lines IH]; intros reg i; cbn [foldl]; [done|].
    assert (outcome (stdout_line h (reg, i) line).2 = outcome i) as Hline.
    { unfold stdout_line. destruct line; simpl; [done|]. by repeat case_match. }
    destruct (stdout_line h (reg, i) line) as [reg1 i1]. simpl in Hline.
    by rewrite IH.
  - done.
  - unfold close_finish, settle. simpl. rewrite Hout.
    by destruct (bool_decide (code = Some 0%Z)).
  - unfold settle. simpl. by rewrite Hout.
Qed.

(** X15: the promise of an invocation settles once: after it has been
    resolved or rejected, no later event of the process changes the
    outcome (an [error] followed by [close] stays rejected with the
    message of the error). *)
Theorem outcome_settles_once (h : nat) (evs : list ProcEvent) (reg : Registry)
    (i : Invocation) (o : Outcome) :
  outcome i = Some o ->
  outcome (foldl (handle_event h) (reg, i) evs).2 = Some o.
Proof.
  revert reg i. induction evs as [|ev evs IH]; intros reg i Hout; cbn [foldl]; [done|].
  pose proof (handle_event_outcome h ev reg i o Hout) as Hev.
  destruct (handle_event h (reg, i) ev) as [reg1 i1]. by apply IH.
Qed.

Lemma outcome_settles_once_witness :
  let i := spawn_invocation 1000 (Some (lit "hi"))
             (mkOptions None None None None true None None) in
  let failed := (on_error ([], i) (lit "spawn claude ENOENT")).2 in
  outcome failed = Some (Rejected (lit "spawn claude ENOENT")) /\
  outcome (foldl (handle_event 0) ([], failed) [Close (Some 0%Z) None]).2
    = Some (Rejected (lit "spawn claude ENOENT")).
Proof.
  intros i failed. split; [reflexivity|].
  exact (outcome_settles_once 0 [Close (Some 0%Z) None] [] failed
           (Rejected (lit "spawn claude ENOENT")) eq_refl).
Defined.

(** X16: the command line always starts with [-p]; a prompt that is not
    blank is passed as the last argument, together with the stream-json
    output flags; skipping permissions, asked for by the caller or by the
    tools settings, adds its flag. *)
Theorem build_args_prompt_last (cmd : option jsstring) (o : Options) :
  head (build_args cmd o) = Some (lit "-p") /\
  (has_prompt cmd = true ->
     last (build_args cmd o) = Some (text_of cmd) /\
     lit "--output-format" ∈ build_args cmd o /\
     lit "stream-json" ∈ build_args cmd o /\
     lit "--verbose" ∈ build_args cmd o) /\
  (skipPermissions o = true ->
     lit "--dangerously-skip-permissions" ∈ build_args cmd o).
Proof.
  split; [done|]. split.
  - intros Hp. unfold build_args. rewrite Hp. split.
    + rewrite !app_assoc. apply last_snoc.
    + repeat split; rewrite !elem_of_app, !elem_of_cons; tauto.
  - intros Hs. unfold build_args. rewrite Hs. cbn [orb].
    rewrite !elem_of_app, !elem_of_cons. tauto.
Qed.

Lemma build_args_prompt_last_witness :
  let o := mkOptions (Some (lit "abc")) None None
             (Some (mkToolsSettings [lit "Read"; lit "Edit"] [] false))
             true (Some (lit "sonnet")) (Some (lit "plan")) in
  build_args (Some (lit "fix it")) o
    = [lit "-p"; lit "--resume=abc"; lit "--output-format"; lit "stream-json";
       lit "--verbose"; lit "--permission-mode"; lit "plan";
       lit "--dangerously-skip-permissions"; lit "--allowed-tools"; lit "Read,Edit";
       lit "--model"; lit "sonnet"; lit "fix it"] /\
  last (build_args (Some (lit "fix it")) o) = Some (lit "fix it").
Proof.
  intros o. split; [reflexivity|].
  exact (proj1 (proj1 (proj2 (build_args_prompt_last (Some (lit "fix it")) o)) eq_refl)).
Defined.

End RunnerEvents.

(** * Further properties of the session manager and the service *)

Section ConversationIdentity.
Import FeishuDb SessionManager.

Lemma conversation_id_cases (event : Event) :
  match getConversationId event with
  | Ok c =>
      exists f, getFeishuId event = Ok f /\ f <> [] /\
        ((getSessionType event = Ok (lit "private") /\ c = lit "user-" ++ f) \/
         (getSessionType event = Ok (lit "group") /\ c = lit "group-" ++ f))
  | Err e => getFeishuId event = Err e
  end.
Proof.
  unfold getConversationId, getFeishuId, getSessionType.
  destruct (message event) as [m|]; [|done].
  destruct (bool_decide (chat_type m = Some (lit "p2p"))).
  - destruct (sender_open_id event) as [[|c s]|]; simpl; try done.
    exists (c :: s). split; [done|]. split; [done|]. by left.
  - destruct (bool_decide (chat_type m = Some (lit "group"))); [|done].
    destruct (chat_id m) as [[|c s]|]; simpl; try done.
    exists (c :: s). split; [done|]. split; [done|]. by right.
Qed.

(** X17: the three readers of an event agree.  When a conversation id is
    computed, the Feishu id and the session type are computed too, the
    Feishu id is not empty, and the conversation id is the Feishu id
    behind [user-] for a private chat and behind [group-] for a group
    chat; when it fails, the Feishu id fails with the same message. *)
Theorem conversation_id_is_prefixed_feishu_id (event : Event) :
  match getConversationId event with
  | Ok c =>
      exists f, getFeishuId event = Ok f /\ f <> [] /\
        ((getSessionType event = Ok (lit "private") /\ c = lit "user-" ++ f) \/
         (getSessionType event = Ok (lit "group") /\ c = lit "group-" ++ f))
  | Err e => getFeishuId event = Err e
  end.
Proof. apply conversation_id_cases. Qed.

(** X18: the conversation id determines the conversation: two events
    with the same conversation id have the same session type and the
    same Feishu id (a private chat and a group chat never share one). *)
Theorem conversation_id_injective (e1 e2 : Event) (c : jsstring) :
  getConversationId e1 = Ok c ->
  getConversationId e2 = Ok c ->
  getFeishuId e1 = getFeishuId e2 /\ getSessionType e1 = getSessionType e2.
Proof.
  intros H1 H2.
  pose proof (conversation_id_cases e1) as P1. rewrite H1 in P1.
  pose proof (conversation_id_cases e2) as P2. rewrite H2 in P2.
  destruct P1 as (f1 & -> & _ & [[-> Hc1]|[-> Hc1]]),
           P2 as (f2 & -> & _ & [[-> Hc2]|[-> Hc2]]);
    rewrite Hc1 in Hc2; try discriminate.
  - by apply app_inv_head in Hc2 as ->.
  - by apply app_inv_head in Hc2 as ->.
Qed.

Lemma conversation_id_injective_witness :
  let e1 := mkEvent (Some (mkMessage (Some (lit "group")) (Some (lit "oc_7"))))
              (Some (lit "ou_1")) in
  let e2 := mkEvent (Some (mkMessage (Some (lit "group")) (Some (lit "oc_7"))))
              (Some (lit "ou_2")) in
  getConversationId e1 = Ok (lit "group-oc_7") /\
  getFeishuId e1 = getFeishuId e2 /\ getSessionType e1 = getSessionType e2.
Proof.
  intros e1 e2. split; [reflexivity|].
  exact (conversation_id_injective e1 e2 (lit "group-oc_7") eq_refl eq_refl).
Defined.

End ConversationIdentity.

Section SessionLookup.
Import FeishuDb SessionManager.

Lemma find_fmap_conversation (f : SessionRecord -> SessionRecord) c (db : Store) :
  (forall r, conversation_id (f r) = conversation_id r) ->
  List.find (fun r => bool_decide (conversation_id r = c)) (f <$> db)
    = f <$> List.find (fun r => bool_decide (conversation_id r = c)) db.
Proof.
  intros Hf. induction db as [|r db IH]; simpl; [done|].
  rewrite Hf. by destruct (bool_decide (conversation_id r = c)).
Qed.

Lemma getSession_updateSessionActivity c now sid db :
  getSession c (updateSessionActivity now sid db)
    = (fun r => if bool_decide (id r = sid) then with_last_activity now r else r)
        <$> getSession c db.
Proof.
  unfold getSession, updateSessionActivity. apply find_fmap_conversation.
  intros r. by case_bool_decide.
Qed.

Lemma getSession_snoc c db r :
  getSession c db = None -> conversation_id r = c -> getSession c (db ++ [r]) = Some r.
Proof.
  unfold getSession. intros Hnone Hc. induction db as [|r0 db IH]; simpl in *.
  - by rewrite bool_decide_eq_true_2.
  - destruct (bool_decide (conversation_id r0 = c)); [done|]. by apply IH.
Qed.

(** How a call that succeeds ends: with the stored record, or with a new
    one. *)
Lemma getOrCreateSession_Ok mgr fs now event db db1 s :
  getOrCreateSession mgr fs now event db = (db1, Ok s) ->
  exists c, getConversationId event = Ok c /\ conversation_id s = c /\
    ((getSession c db = Some s /\ db1 = updateSessionActivity now (id s) db) \/
     (getSession c db = None /\ directory_error fs = None /\ db1 = db ++ [s] /\
      claude_session_id s = None /\ last_activity s = now /\
      project_path s = resolve fs (baseDir mgr ++ lit "/" ++ c))).
Proof.
  unfold getOrCreateSession.
  destruct (getConversationId event) as [c|e] eqn:Hc; [|done].
  destruct (getFeishuId event) as [f|e]; [|done].
  destruct (getSessionType event) as [t|e]; [|done].
  destruct (getSession c db) as [s0|] eqn:Hget.
  - intros [= <- <-]. exists c. split; [done|]. split; [|by left].
    unfold getSession in Hget. apply List.find_some in Hget as [_ Hb].
    by apply bool_decide_eq_true_1 in Hb.
  - destruct (directory_error fs) as [e|] eqn:Hdir; [done|].
    intros [= <- <-]. exists c. split; [done|]. split; [done|]. by right.
Qed.

(** X19: a conversation has one record.  Once [getOrCreateSession] has
    returned a record for an event, the next call for that event returns
    the same record (with the last activity of the first call), adds no
    row, and does not depend on the file system. *)
Theorem getOrCreateSession_again mgr mgr' fs fs' now now' event db db1 s :
  getOrCreateSession mgr fs now event db = (db1, Ok s) ->
  getOrCreateSession mgr' fs' now' event db1
    = (updateSessionActivity now' (id s) db1, Ok (with_last_activity now s)) /\
  length (updateSessionActivity now' (id s) db1) = length db1.
Proof.
  intros Hfirst.
  destruct (getOrCreateSession_Ok _ _ _ _ _ _ _ Hfirst)
    as (c & Hc & Hconv & [[Hget ->]|(Hget & _ & -> & _ & Hlast & _)]).
  - split; [|unfold updateSessionActivity; by rewrite length_fmap].
    rewrite (getOrCreateSession_present mgr' fs' now' event _ c (with_last_activity now s));
      [done | done |].
    rewrite getSession_updateSessionActivity, Hget. simpl.
    by rewrite bool_decide_eq_true_2.
  - split; [|unfold updateSessionActivity; by rewrite length_fmap].
    assert (with_last_activity now s = s) as -> by (destruct s; simpl in *; by subst).
    by apply (getOrCreateSession_present mgr' fs' now' event _ c s), getSession_snoc.
Qed.

Lemma getOrCreateSession_again_witness :
  let event := mkEvent (Some (mkMessage (Some (lit "p2p")) (Some (lit "oc_9"))))
                 (Some (lit "ou_1")) in
  let mgr := mkManager 1 (lit "./feicc") in
  let fs := mkProvisioning (fun p => lit "/srv/" ++ p) None in
  let broken := mkProvisioning (fun p => p) (Some (lit "EACCES")) in
  let s := mkSessionRecord 1 (lit "user-ou_1") (lit "ou_1") (lit "private")
             (lit "/srv/./feicc/user-ou_1") None 1 100 true in
  getOrCreateSession mgr fs 100 event [] = ([s], Ok s) /\
  getOrCreateSession mgr broken 200 event [s]
    = ([with_last_activity 200 s], Ok s).
Proof.
  intros event mgr fs broken s. split; [reflexivity|].
  exact (proj1 (getOrCreateSession_again mgr mgr fs broken 100 200 event [] [s] s
                  eq_refl)).
Defined.

(** X20: a call that fails (an event without message, sender or chat id,
    an unknown chat type, a directory that cannot be made) leaves the
    store as it was; a call that creates a session adds exactly one row,
    with no process-session id, for the conversation of the event, and
    that session is not busy whatever the registry holds. *)
Theorem getOrCreateSession_store_effect mgr fs now event db sys :
  match getOrCreateSession mgr fs now event db with
  | (db1, Err _) => db1 = db
  | (db1, Ok s) =>
      (getSession (conversation_id s) db = Some s /\ length db1 = length db) \/
      (getSession (conversation_id s) db = None /\ db1 = db ++ [s] /\
       claude_session_id s = None /\ isSessionBusy (Some s) sys = false)
  end.
Proof.
  destruct (getOrCreateSession mgr fs now event db) as [db1 [s|e]] eqn:Hcall.
  - destruct (getOrCreateSession_Ok _ _ _ _ _ _ _ Hcall)
      as (c & _ & <- & [[Hget ->]|(Hget & _ & -> & Hid & _ & _)]).
    + left. split; [done|]. unfold updateSessionActivity. by rewrite length_fmap.
    + right. repeat split; try done. unfold isSessionBusy. by rewrite Hid.
  - unfold getOrCreateSession in Hcall.
    repeat case_match; by simplify_eq.
Qed.

End SessionLookup.

Section ServiceLifecycle.
Import FeishuDb FeishuService.

(** X23: [start] on a stopped service succeeds exactly when there is a
    user, there are credentials and the client connects; then the
    service runs and its client accepts messages, and otherwise the
    error is handed on and the service does not run.  On a running
    service [start] does nothing. *)
Theorem start_succeeds_iff (env : Environment) (svc : Service) (db : Store) :
  (isRunning svc = true -> start env svc db = (svc, db, None)) /\
  (isRunning svc = false ->
   ((start env svc db).2 = None <->
      first_user env <> None /\ credentials env <> None /\ connect_error env = None) /\
   (isRunning (start env svc db).1.1 = true <-> (start env svc db).2 = None) /\
   ((start env svc db).2 = None ->
      (accepting <$> client (start env svc db).1.1) = Some true /\
      userId (start env svc db).1.1 = first_user env)).
Proof.
  unfold start, loadConfig. split; [by intros ->|]. intros Hrun. rewrite Hrun.
  destruct (first_user env) as [uid|];
    [|simpl; repeat split; intros; destruct_and?; first [done | congruence]].
  destruct (credentials env) as [[a b]|];
    [|simpl; repeat split; intros; destruct_and?; first [done | congruence]].
  destruct (connect_error env) as [e|]; simpl;
    repeat split; intros; destruct_and?; first [done | congruence].
Qed.

Lemma start_succeeds_iff_witness :
  let env := mkEnvironment (Some 1%Z) (Some (lit "cli_app", lit "secret")) None in
  start env constructor [] =
    (mkService (Some (mkClient (lit "cli_app") (lit "secret") true))
       (Some (SessionManager.mkManager 1 (lit "./feicc"))) (Some 1%Z) true, [], None) /\
  (isRunning (start env constructor []).1.1 = true <-> (start env constructor []).2 = None).
Proof.
  intros env. split; [reflexivity|].
  exact (proj1 (proj2 (proj2 (start_succeeds_iff env constructor []) eq_refl))).
Defined.

(** X24: [stop] never hands an error on.  On a stopped service it does
    nothing; on a running one it ends with the service stopped, unless
    stopping the client failed, in which case the service is left as it
    was; stopping twice is the same as stopping once. *)
Theorem stop_behaviour (stop_error : option jsstring) (svc : Service) :
  (isRunning svc = false -> stop stop_error svc = (svc, None)) /\
  (isRunning svc = true ->
   match client svc, stop_error with
   | Some _, Some e => stop stop_error svc = (svc, Some e)
   | _, _ => isRunning (stop stop_error svc).1 = false /\ (stop stop_error svc).2 = None
   end) /\
  stop None (stop None svc).1 = ((stop None svc).1, None).
Proof.
  unfold stop. split; [by intros ->|]. split.
  - intros ->. simpl. by destruct (client svc), stop_error.
  - destruct (isRunning svc) eqn:Hrun; simpl; [|by rewrite Hrun].
    by destruct (client svc).
Qed.

End ServiceLifecycle.
